(** * Bonfire: the ranking engine of [bonfire/db.py]

    A shallow embedding of the link scoring ([score_link]), the trending
    query ([get_items]), the breakout detector ([get_top_link]), the search
    merge ([search_items]), the raw-tweet queue ([next_unprocessed_tweet],
    [enqueue_tweet]), the maintenance functions ([get_all_docs],
    [cleanup], the url cache) and the deletes, together with the
    properties the design document states about them and further
    properties read off the code.

    Python values are modelled as follows: a [float] is an IEEE binary64
    number (Rocq's primitive floats), an [int] is a [Z], a [dict] used as a
    map is a [gmap], a [set] is a [gset], a raised exception is the [Raise]
    outcome of [result].

    The document store is outside the sources. Its requests are modelled
    on the request bodies the code builds: a terms aggregation groups the
    documents by a field, orders the buckets by document count and cuts
    them at [size]; a search returns the first [size] matching documents
    of the index; a delete conditioned on a version tells "not found" from
    "conflict"; a write is visible to the requests that follow it.
    [math.log] and the clock ([get_since_now]) are parameters of the
    development. Python's [sorted] is the algorithm CPython runs on a
    short list, and the interpreter's recursion limit is a bound on the
    nested calls of a function that calls itself. *)

From Stdlib Require Import ZArith Floats.
From stdpp Require Import gmap strings pretty list fin_maps sorting.

(** ** Exceptions and results *)

Inductive exn : Set :=
  | ZeroDivisionError
  | ValueError
  | IndexError
  | OverflowError
  | RuntimeError.

Inductive result (A : Type) : Type :=
  | Ok (a : A)
  | Raise (e : exn).
Arguments Ok {A} a.
Arguments Raise {A} e.

#[global] Instance result_ret : MRet result := λ A a, Ok a.
#[global] Instance result_bind : MBind result := λ A B f r,
  match r with
  | Ok a => f a
  | Raise e => Raise e
  end.
#[global] Instance result_fmap : FMap result := λ A B f r,
  match r with
  | Ok a => Ok (f a)
  | Raise e => Raise e
  end.

(** [l[0]] on a Python list. *)
Definition item0 {A} (l : list A) : result A :=
  match l with
  | x :: _ => Ok x
  | [] => Raise IndexError
  end.

(** ** Floating point *)

(** [float(z)] for an [int]: the nearest binary64 number; an [int] beyond
    the range of a double raises [OverflowError]. *)
Definition float_of_Z (z : Z) : result float :=
  let f := SF2Prim (binary_normalize prec emax z 0 false) in
  if PrimFloat.is_infinity f then Raise OverflowError else Ok f.

(** [x / y] on floats: a zero divisor raises. *)
Definition float_div (x y : float) : result float :=
  if PrimFloat.eqb y 0 then Raise ZeroDivisionError else Ok (x / y)%float.

(** Truth value of a float: [if x]. *)
Definition float_truth (x : float) : bool := negb (PrimFloat.eqb x 0).

(** A series evaluation of the natural logarithm, used to run the model on
    concrete inputs: [x = m * 2^e] with [m] in [sqrt 1/2, sqrt 2), and
    [ln m = 2 * atanh ((m - 1) / (m + 1))]. Exact at [1.0]. *)
Fixpoint atanh_series (k : nat) (n : float) (z2 : float) : float :=
  match k with
  | O => (1 / n)%float
  | S k' => (1 / n + z2 * atanh_series k' (n + 2) z2)%float
  end.

Definition log_series (x : float) : float :=
  if negb (PrimFloat.eqb x x) then x
  else if PrimFloat.is_infinity x then x
  else
    let '(m, e) := Z.frexp x in
    let '(m, e) :=
      if PrimFloat.ltb m 0x1.6a09e667f3bcdp-1%float
      then ((m * 2)%float, (e - 1)%Z) else (m, e) in
    let z := ((m - 1) / (m + 1))%float in
    let ef := SF2Prim (binary_normalize prec emax e 0 false) in
    (ef * 0x1.62e42fefa39efp-1 + 2 * (z * atanh_series 16 1 (z * z)))%float.

(** A reference clock: timestamps in seconds, read at time [now]. *)
Definition clock_at (now : Z) (t : Z) : Z := (now - t) `div` 60.

(** ** Sorting *)

(** A stable insertion sort: [x] moves behind [y] exactly when [y] has to
    come strictly first, so elements that compare equal keep their order. *)
Fixpoint insert_by {A K} (first : K → K → bool) (key : A → K)
    (x : A) (l : list A) : list A :=
  match l with
  | [] => [x]
  | y :: l' =>
      if first (key y) (key x) then y :: insert_by first key x l'
      else x :: l
  end.

Definition sort_by {A K} (first : K → K → bool) (key : A → K)
    (l : list A) : list A :=
  foldr (insert_by first key) [] l.

(** [a] may stand in front of [b]: [b] does not have to come strictly
    first. *)
Definition in_order {A K} (first : K → K → bool) (key : A → K) (a b : A)
    : Prop :=
  first (key b) (key a) = false.

(** ** Python's sort *)

(** [count_run] of CPython's [listsort]: the length of the run at the
    head of the list, which is either ascending (no element is less than
    the one before it) or strictly descending, and which of the two. *)
Fixpoint run_ascending {A} (lt : A → A → bool) (prev : A) (l : list A)
    : nat :=
  match l with
  | [] => 0
  | x :: l' => if lt x prev then 0 else S (run_ascending lt x l')
  end.

Fixpoint run_descending {A} (lt : A → A → bool) (prev : A) (l : list A)
    : nat :=
  match l with
  | [] => 0
  | x :: l' => if lt x prev then S (run_descending lt x l') else 0
  end.

Definition count_run {A} (lt : A → A → bool) (l : list A) : nat * bool :=
  match l with
  | [] => (0, false)
  | [x] => (1, false)
  | x :: y :: l' =>
      if lt y x then (2 + run_descending lt y l', true)
      else (2 + run_ascending lt y l', false)
  end.

(** The binary search of [binarysort] for the place of [pivot] in the
    sorted [run]: [do { p = l + ((r - l) >> 1); if (pivot < run[p]) r = p;
    else l = p + 1; } while (l < r)]. The interval halves with every
    turn, so [length run] turns are never used up. *)
Fixpoint bisect {A} (lt : A → A → bool) (pivot : A) (run : list A)
    (turns l r : nat) : nat :=
  match turns with
  | O => l
  | S turns' =>
      let p := l + (r - l) `div` 2 in
      let '(l, r) :=
        if lt pivot (default pivot (run !! p)) then (l, p) else (S p, r) in
      if l <? r then bisect lt pivot run turns' l r else l
  end.

(** One turn of the outer loop of [binarysort]: [pivot] is put at the
    place the search found, the elements behind it move up. *)
Definition binary_insert {A} (lt : A → A → bool) (run : list A) (pivot : A)
    : list A :=
  let l := bisect lt pivot run (length run) 0 (length run) in
  take l run ++ pivot :: drop l run.

Definition binarysort {A} (lt : A → A → bool) (run rest : list A) : list A :=
  foldl (binary_insert lt) run rest.

(** [list.sort] as CPython runs it on fewer than 64 elements: the run at
    the head of the list, reversed when it is descending, is extended to
    the whole list by binary insertion. Only [lt] compares elements. (On
    64 elements or more CPython sorts shorter runs in this way and merges
    them, to the same result unless [lt] is not an order on the
    elements.) *)
Definition listsort {A} (lt : A → A → bool) (l : list A) : list A :=
  let '(n, descending) := count_run lt l in
  let run := take n l in
  binarysort lt (if descending then reverse run else run) (drop n l).

(** [sorted(l, key=key, reverse=True)] with float keys: the list is
    reversed, sorted, and reversed again, which keeps elements with equal
    keys in their order. *)
Definition sorted_reverse {A} (key : A → float) (l : list A) : list A :=
  reverse (listsort (λ x y, PrimFloat.ltb (key x) (key y)) (reverse l)).

(** ** Loops *)

(** A [for] loop threading a state, stopping at the first exception. *)
Fixpoint for_loop {S A} (body : S → A → result S) (s : S) (l : list A)
    : result S :=
  match l with
  | [] => Ok s
  | x :: l' => s' ← body s x; for_loop body s' l'
  end.

(** A loop that collects one value per element, in order. *)
Fixpoint for_each {A B} (body : A → result B) (l : list A)
    : result (list B) :=
  match l with
  | [] => Ok []
  | x :: l' => y ← body x; ys ← for_each body l'; Ok (y :: ys)
  end.

(** ** The universe index and its queries *)

(** A processed tweet document. *)
Record tweet : Set := Tweet {
  tweet_id : string;
  content_url : string;
  user_id : string;
  created : Z;
}.

#[global] Instance tweet_eq_dec : EqDecision tweet.
Proof. solve_decision. Defined.

(** A content document; [save_content] indexes it under its url. *)
Record content : Set := Content {
  title : string;
}.

(** The indices of one universe as [get_items] and [get_top_link] read
    them: the tweets in index order, the users' weights by id, the content
    by url, the ids of the top-content index, and the extended stats
    ([avg], [std_deviation]) of the cached scores per [hours_since]. *)
Record universe : Type := Universe {
  tweet_docs : list tweet;
  user_docs : gmap string float;
  content_docs : gmap string content;
  top_content : gset string;
  score_stats : Z → option (float * float);
}.

(** A bucket of a terms aggregation. *)
Record term_bucket : Set := TermBucket {
  key : string;
  doc_count : nat;
}.

(** A hit of a [top_hits] aggregation sorted on one field. *)
Record hit : Set := Hit {
  sort0 : Z;
  _source : tweet;
}.

(** A bucket of the [content] aggregation of [get_items] with its two
    sub-aggregations. *)
Record link : Set := Link {
  link_key : string;
  link_doc_count : nat;
  tweeters : list term_bucket;
  first_tweets : list hit;
}.

(** Modelled from the spec: the store's terms aggregation (the client
    [ESClient] and the store are not part of the sources). Documents are
    grouped by [field]; buckets are ordered by document count, largest
    first, equal counts by ascending term; buckets under [min_doc_count]
    are dropped and at most [size] buckets are returned. *)
Definition buckets {A} (field : A → string) (min_doc_count : nat)
    (docs : list A) : list (string * list A) :=
  filter (λ b, min_doc_count ≤ length b.2)
    (sort_by (λ cy cx, cx <? cy) (λ b : string * list A, length b.2)
      (sort_by String.ltb fst
        ((λ k, (k, filter (λ d, field d = k) docs))
           <$> remove_dups (field <$> docs)))).

Definition terms {A} (field : A → string) (size min_doc_count : nat)
    (docs : list A) : list (string * list A) :=
  take size (buckets field min_doc_count docs).

(** Modelled from the spec: the store's [top_hits] aggregation sorted by
    ascending [created], the first [size] documents of the bucket. *)
Definition top_hits (size : nat) (docs : list tweet) : list hit :=
  (λ t, Hit (created t) t) <$> take size (sort_by Z.ltb created docs).

(** Modelled from the spec: the store's filtered search, which returns
    the first [size] matching documents of the index. *)
Definition search {A} (P : A → Prop) `{∀ x, Decision (P x)} (size : nat)
    (docs : list A) : list A :=
  take size (filter P docs).

(** The aggregation request of [get_items] (its [body]). *)
Definition recent_tweets (start end_ : Z) (docs : list tweet) : list tweet :=
  filter (λ t, start ≤ created t ∧ created t ≤ end_)%Z docs.

Definition tweeters_of (docs : list tweet) : list term_bucket :=
  (λ b, TermBucket b.1 (length b.2)) <$> terms user_id 1000 1 docs.

Definition content_buckets (start end_ : Z) (search_limit : nat)
    (docs : list tweet) : list link :=
  (λ b, Link b.1 (length b.2) (tweeters_of b.2) (top_hits 3 b.2))
    <$> terms content_url search_limit 2 (recent_tweets start end_ docs).

(** The second request of [get_items] (its [body2]). *)
Definition outside_tweets (keys : list string) (start : Z)
    (docs : list tweet) : list tweet :=
  search (λ t, content_url t ∈ keys ∧ (created t ≤ start)%Z) 1000 docs.

(** [get_user_weights]: the weights of the users found among [user_ids]. *)
Definition get_user_weights (u : universe) (user_ids : list string)
    : gmap string float :=
  filter (λ p, p.1 ∈ user_ids) (user_docs u).

(** ** Scoring *)

(** One line of [score_explanation]: the arguments of its format string. *)
Inductive explanation_line : Set :=
  | CitizenLine (tweeter : string) (user_weight influence score : float)
  | DecayLine (hours_since : Z) (score ratio velocity : float).

(** The rendering of a time as "time since now" ([get_since_now] with its
    default arguments): the time it was computed from. *)
Inductive since : Set :=
  | SinceNow (t : Z).

(** A link with the score and the explanation [get_items] stores in it. *)
Record scored : Set := Scored {
  sl_link : link;
  sl_score : float;
  sl_explanation : list explanation_line;
}.

(** A link as [get_items] returns it. *)
Record top_link : Set := TopLink {
  url : string;
  meta : content;
  rank : nat;
  score : float;
  score_explanation : list explanation_line;
  first_tweeted : since;
  tweets : list tweet;
}.

(** ** The search merge *)

(** A document of the combined search of [search_items]: content, which
    carries a [url], or a tweet, which carries a [content_url]. *)
Inductive document : Set :=
  | ContentDoc (doc_url : string) (c : content)
  | TweetDoc (t : tweet).

#[global] Instance content_eq_dec : EqDecision content.
Proof. solve_decision. Defined.
#[global] Instance document_eq_dec : EqDecision document.
Proof. solve_decision. Defined.

Inductive item_type : Set :=
  | type_content
  | type_tweet.

(** A record [search_items] emits. *)
Record item : Set := Item {
  item_kind : item_type;
  item_url : string;
  item_meta : option content;
  item_tweets : list tweet;
  item_rank : nat;
  item_first_tweeted : option since;
}.

(** [res.pop(res.index(x))]: the first element equal to [x] leaves. *)
Fixpoint pop_first (x : document) (res : list document) : list document :=
  match res with
  | [] => []
  | y :: res' => if decide (y = x) then res' else y :: pop_first x res'
  end.

(** The tweets after the current position that link to [u]. *)
Definition matching_tweets (u : string) (rest : list document)
    : list tweet :=
  omap (λ r, match r with
             | TweetDoc t => if decide (content_url t = u) then Some t else None
             | ContentDoc _ _ => None
             end) rest.

(** The content after the current position that is stored under [u]. *)
Definition matching_content (u : string) (rest : list document)
    : list (string * content) :=
  omap (λ r, match r with
             | ContentDoc u' c => if decide (u' = u) then Some (u', c) else None
             | TweetDoc _ => None
             end) rest.

(** [result['first_tweeted']], set when the record carries tweets. *)
Definition first_tweeted_of (ts : list tweet) : option since :=
  match ts with
  | [] => None
  | t :: _ => Some (SinceNow (created t))
  end.

(** One turn of the loop of [search_items] on [result], the document at
    [index], with [rest] the documents behind it: the record to emit and
    what is left of [rest]. *)
Definition merge_step (index : nat) (result : document)
    (rest : list document) : item * list document :=
  match result with
  | ContentDoc u c =>
      let ts := matching_tweets u rest in
      let rest' := foldl (λ res t, pop_first (TweetDoc t) res) rest ts in
      (Item type_content u (Some c) ts (index + 1) (first_tweeted_of ts),
       rest')
  | TweetDoc t =>
      match matching_content (content_url t) rest with
      | [] =>
          (Item type_tweet (content_url t) None [t] (index + 1)
             (first_tweeted_of [t]),
           rest)
      | (u, c) :: _ =>
          (Item type_content u (Some c) [t] (index + 1)
             (first_tweeted_of [t]),
           pop_first (ContentDoc u c) rest)
      end
  end.

(** The loop: [res] shrinks while it is enumerated, so the number of
    turns is bounded by [fuel]. *)
Fixpoint merge_loop (fuel index : nat) (res : list document) : list item :=
  match fuel, res with
  | S fuel', result :: rest =>
      let '(it, rest') := merge_step index result rest in
      it :: merge_loop fuel' (S index) rest'
  | _, _ => []
  end.

(** [search_items] on the documents [res] the search returned. *)
Definition search_items (res : list document) : list item :=
  merge_loop (length res) 0 res.

(** ** The queue of raw tweets *)

(** A raw tweet document with the version the store keeps for it. *)
Record raw_tweet : Set := RawTweet {
  _id : string;
  _version : nat;
}.

(** What other processes do to the raw tweets of the universe while
    [next_unprocessed_tweet] runs: another consumer deletes one, or one
    is indexed again, which raises its version. No new raw tweet arrives
    during the call. *)
Inductive interference : Set :=
  | OtherDelete (id : string)
  | OtherUpdate (id : string).

Definition interfere (docs : list raw_tweet) (i : interference)
    : list raw_tweet :=
  match i with
  | OtherDelete id => filter (λ d, _id d ≠ id) docs
  | OtherUpdate id =>
      (λ d, if decide (_id d = id) then RawTweet id (S (_version d)) else d)
        <$> docs
  end.

(** The raw tweets a search that excludes [not_ids] can return. *)
Definition visible (not_ids : option (list string))
    (docs : list raw_tweet) : list raw_tweet :=
  match not_ids with
  | None => docs
  | Some ids => filter (λ d, _id d ∉ ids) docs
  end.

(** Modelled from the spec: the store's search for one raw tweet whose id
    is not excluded. *)
Definition search_raw (not_ids : option (list string))
    (docs : list raw_tweet) : option raw_tweet :=
  head (visible not_ids docs).

Inductive delete_outcome : Set :=
  | Deleted (docs : list raw_tweet)
  | NotFoundError
  | ConflictError.

(** Modelled from the spec: the store's delete conditioned on a version,
    which fails with "not found" or with a version conflict. *)
Definition delete_raw (id : string) (version : nat) (docs : list raw_tweet)
    : delete_outcome :=
  match filter (λ d, _id d = id) docs with
  | [] => NotFoundError
  | d :: _ =>
      if decide (_version d = version)
      then Deleted (filter (λ d, _id d ≠ id) docs)
      else ConflictError
  end.

(** The return of a call: the tweet or [None], the raw tweets left in the
    index, and the number of recursive calls made. *)
Record dequeued : Set := Dequeued {
  returned : option raw_tweet;
  remaining : list raw_tweet;
  retries : nat;
}.

(** [next_unprocessed_tweet]; [env (2 * n)] happens before the search of
    the [n]-th call and [env (2 * n + 1)] between its search and its
    delete. The function calls itself, so every further call is one more
    frame on the interpreter's stack: [frames] is the number of nested
    calls the stack has room for (the recursion limit is 1000 frames
    unless it is raised, and the callers' frames count), and the call
    that does not fit raises [RuntimeError], which no handler of the
    function catches. *)
Fixpoint next_unprocessed_tweet (frames : nat)
    (env : nat → list interference) (n : nat) (docs : list raw_tweet)
    (not_ids : option (list string)) : result dequeued :=
  match frames with
  | O => Raise RuntimeError
  | S frames' =>
      let docs := foldl interfere docs (env (2 * n)) in
      match search_raw not_ids docs with
      | None => Ok (Dequeued None docs n)
      | Some result =>
          let docs := foldl interfere docs (env (2 * n + 1)) in
          match delete_raw (_id result) (_version result) docs with
          | Deleted docs' => Ok (Dequeued (Some result) docs' n)
          | NotFoundError =>
              next_unprocessed_tweet frames' env (S n) docs not_ids
          | ConflictError =>
              let not_ids :=
                match not_ids with
                | None => [_id result]
                | Some ids => ids ++ [_id result]
                end in
              next_unprocessed_tweet frames' env (S n) docs (Some not_ids)
          end
      end
  end.

(** ** Maintenance: paging, cleanup, caches *)

(** Modelled from the spec: the store's search with [from_] and [size],
    one page of the documents that match. *)
Definition page {A} (from_ size : nat) (hits : list A) : list A :=
  take size (drop from_ hits).

(** The loop of [get_all_docs] over [hits], the documents of the doc type
    in the universe index that match [body]; [field] reads the value to
    collect off a document. [None]: more turns than [fuel]. *)
Fixpoint get_all_docs_loop {A B} (fuel : nat) (field : A → B)
    (hits : list A) (size : option Z) (start : nat) (all_results : list B)
    : option (list B) :=
  match fuel with
  | O => None
  | S fuel' =>
      let res := page start 5000 hits in
      let all_results := all_results ++ (field <$> res) in
      let size :=
        match size with
        | None => Z.of_nat (length hits)
        | Some n => n
        end in
      let start := start + 5000 in
      if bool_decide (size ≤ Z.of_nat start)%Z then Some all_results
      else get_all_docs_loop fuel' field hits (Some size) start all_results
  end.

Definition get_all_docs {A B} (fuel : nat) (field : A → B) (hits : list A)
    (size : option Z) : option (list B) :=
  get_all_docs_loop fuel field hits size 0 [].

(** An entry of the url cache. *)
Record cached_url : Set := CachedUrl {
  cached_url_url : string;
  resolved : string;
  cached_url_at : Z;
}.

(** An entry of the results cache. *)
Record cached_results : Set := CachedResults {
  cached_results_id : string;
  cached_results_at : Z;
  hours_since : Z;
}.

(** The indices [cleanup] works on: the universe index with its tweets,
    users and content, the raw tweets of the same index, and the two cache
    indices. *)
Record cluster : Type := Cluster {
  universe_index : universe;
  raw_tweets : list raw_tweet;
  url_cache : gmap string cached_url;
  results_cache : list cached_results;
}.

(** [cleanup]; [cutoff] is the time the store resolves [now-<days>d] to.
    [get_all_docs] searches the universe index whatever index it is given,
    and the universe index holds no document of the types of the two
    caches: the searches for old cached results and old cached urls find
    nothing. *)
Definition cleanup (cutoff : Z) (c : cluster) : option cluster :=
  let u := universe_index c in
  let get_all {A B} (field : A → B) (hits : list A) :=
    get_all_docs (S (length hits)) field hits None in
  old_tweet_ids ←
    get_all tweet_id (filter (λ t, created t < cutoff)%Z (tweet_docs u));
  old_results_ids ← get_all cached_results_id [];
  old_urls_ids ← get_all cached_url_url [];
  let tweets := filter (λ t, tweet_id t ∉ old_tweet_ids) (tweet_docs u) in
  let results :=
    filter (λ r, cached_results_id r ∉ old_results_ids) (results_cache c) in
  let urls :=
    filter (λ p, p.1 ∉ (old_urls_ids : list string)) (url_cache c) in
  all_urls ← get_all fst (map_to_list (content_docs u));
  tweeted_urls ← get_all content_url tweets;
  let obsolete_urls : gset string :=
    list_to_set all_urls ∖ list_to_set tweeted_urls in
  let contents := filter (λ p, p.1 ∉ obsolete_urls) (content_docs u) in
  Some (Cluster
          (Universe tweets (user_docs u) contents (top_content u)
             (score_stats u))
          (raw_tweets c) urls results).

(** [s.rstrip('/')] *)
Fixpoint rstrip_slash (s : string) : string :=
  match s with
  | EmptyString => EmptyString
  | String c s' =>
      match rstrip_slash s' with
      | EmptyString =>
          if bool_decide (String c EmptyString = "/") then EmptyString
          else String c EmptyString
      | r => String c r
      end
  end.

(** [get_cached_url]: [None] when the url is not in the cache. *)
Definition get_cached_url (cache : gmap string cached_url) (url : string)
    : option string :=
  resolved <$> cache !! rstrip_slash url.

(** [set_cached_url] at time [now]. *)
Definition set_cached_url (now : Z) (cache : gmap string cached_url)
    (url resolved_url : string) : gmap string cached_url :=
  <[url := CachedUrl (rstrip_slash url) (rstrip_slash resolved_url) now]> cache.

(** ** Writes to the universe *)

(** [add_to_top_links]: the link is indexed under its url. *)
Definition add_to_top_links (u : universe) (l : top_link) : universe :=
  Universe (tweet_docs u) (user_docs u) (content_docs u)
    ({[url l]} ∪ top_content u) (score_stats u).

(** [delete_content_by_url]: [None] when there is no such content (the
    store's "not found"). *)
Definition delete_content_by_url (u : universe) (content_url : string)
    : option universe :=
  match content_docs u !! content_url with
  | None => None
  | Some _ =>
      Some (Universe (tweet_docs u) (user_docs u)
              (delete content_url (content_docs u)) (top_content u)
              (score_stats u))
  end.

(** [delete_tweets_by_url]: a delete by query on [content_url]. *)
Definition delete_tweets_by_url (u : universe) (url : string) : universe :=
  Universe (filter (λ t, content_url t ≠ url) (tweet_docs u)) (user_docs u)
    (content_docs u) (top_content u) (score_stats u).

(** [enqueue_tweet]: the raw tweet is indexed under its id; indexing an
    id again raises the version of the document. *)
Definition enqueue_tweet (docs : list raw_tweet) (id : string)
    : list raw_tweet :=
  if bool_decide (id ∈ _id <$> docs) then interfere docs (OtherUpdate id)
  else docs ++ [RawTweet id 1].

(** The tweets among the documents of a search. *)
Definition tweets_of (res : list document) : list tweet :=
  omap (λ d, match d with
             | TweetDoc t => Some t
             | ContentDoc _ _ => None
             end) res.

(** The content among the documents of a search. *)
Definition content_of (res : list document) : list (string * content) :=
  omap (λ d, match d with
             | ContentDoc u c => Some (u, c)
             | TweetDoc _ => None
             end) res.

(** ** Sample data *)

Module Sample.

(** A bucket two users tweeted, first at time 0. *)
Definition shared_link : link :=
  Link "http://a.example/1" 2
    [TermBucket "alice" 1; TermBucket "bob" 1]
    [Hit 0 (Tweet "t1" "http://a.example/1" "alice" 0);
     Hit 30 (Tweet "t2" "http://a.example/1" "bob" 30)].

(** A bucket whose tweets carry no user: no tweeter bucket. *)
Definition anonymous_link : link :=
  Link "http://a.example/2" 2 []
    [Hit 0 (Tweet "t3" "http://a.example/2" "" 0);
     Hit 30 (Tweet "t4" "http://a.example/2" "" 30)].

(** [alice] is tracked with weight 1, [bob] no longer is. *)
Definition weights : gmap string float := {[ "alice" := 1%float ]}.

(** A universe read over the window from 100 to 200: link 1 has two
    tweeters, link 2 one tweeter who tweeted it twice, link 3 was
    already tweeted at time 50. *)
Definition trending : universe :=
  Universe
    [Tweet "t1" "http://a.example/1" "alice" 110;
     Tweet "t2" "http://a.example/1" "bob" 120;
     Tweet "t3" "http://a.example/2" "alice" 130;
     Tweet "t4" "http://a.example/2" "alice" 140;
     Tweet "t5" "http://a.example/3" "carol" 50;
     Tweet "t6" "http://a.example/3" "carol" 150;
     Tweet "t7" "http://a.example/3" "bob" 160]
    {[ "alice" := 10%float; "bob" := 1%float ]}
    {[ "http://a.example/1" := Content "one";
       "http://a.example/2" := Content "two";
       "http://a.example/3" := Content "three" ]}
    ∅
    (λ hours, if decide (hours = 24%Z) then Some (1%float, 0.5%float)
              else None).

(** A universe in which a popular link was tweeted 1000 times before
    the window, and a fresh-looking link once, later in the index. *)
Definition crowded : universe :=
  Universe
    (((λ n, Tweet ("o" +:+ pretty n) "http://a.example/popular" "dave" 10)
        <$> seq 0 1000)
     ++ [Tweet "s1" "http://a.example/seen" "erin" 50;
         Tweet "p1" "http://a.example/popular" "alice" 110;
         Tweet "p2" "http://a.example/popular" "bob" 120;
         Tweet "s2" "http://a.example/seen" "alice" 130;
         Tweet "s3" "http://a.example/seen" "bob" 140])
    {[ "alice" := 10%float; "bob" := 1%float ]}
    {[ "http://a.example/popular" := Content "popular";
       "http://a.example/seen" := Content "seen" ]}
    ∅
    (λ _, None).

(** Search results: a content document and two tweets that link to it,
    the more relevant one tweeted later. *)
Definition later_tweet : tweet := Tweet "t1" "http://a.example/1" "alice" 20.
Definition earlier_tweet : tweet := Tweet "t2" "http://a.example/1" "bob" 10.
Definition search_results : list document :=
  [ContentDoc "http://a.example/1" (Content "one");
   TweetDoc later_tweet;
   TweetDoc earlier_tweet].

(** The indices at cleanup time: the trending universe, a raw tweet that
    waits, an entry in each cache. *)
Definition stale : cluster :=
  Cluster trending [RawTweet "r1" 1]
    {[ "http://t.example/1" :=
         CachedUrl "http://t.example/1" "http://a.example/1" 10 ]}
    [CachedResults "c1" 10 24].

(** Three raw tweets, and other processes that index the first one again
    after the first search and delete the second one after the second
    search. *)
Definition queue : list raw_tweet :=
  [RawTweet "r1" 1; RawTweet "r2" 1; RawTweet "r3" 1].
Definition busy (n : nat) : list interference :=
  match n with
  | 1 => [OtherUpdate "r1"]
  | 3 => [OtherDelete "r2"]
  | _ => []
  end.

(** A backlog of 1100 raw tweets, and another consumer that deletes each
    raw tweet between the search that finds it and its delete. *)
Definition backlog : list raw_tweet :=
  (λ n, RawTweet ("r" +:+ pretty n) 1) <$> seq 0 1100.
Definition rival (n : nat) : list interference :=
  if Nat.odd n then [OtherDelete ("r" +:+ pretty (n `div` 2))] else [].

(** A universe read at time 10000 over the window from 50 to 10000, with
    one hour of decay: link 2 was first tweeted more than two hours ago,
    by a user of weight 1e308; links 1 and 3 a quarter of an hour ago. *)
Definition skewed : universe :=
  Universe
    [Tweet "t1" "http://a.example/1" "alice" 9000;
     Tweet "t2" "http://a.example/1" "alice" 9100;
     Tweet "t3" "http://a.example/2" "whale" 100;
     Tweet "t4" "http://a.example/2" "whale" 200;
     Tweet "t5" "http://a.example/3" "carol" 9000;
     Tweet "t6" "http://a.example/3" "carol" 9100]
    {[ "alice" := 1%float;
       "whale" := 0x1.1ccf385ebc8a0p+1023%float;
       "carol" := 10%float ]}
    {[ "http://a.example/1" := Content "one";
       "http://a.example/2" := Content "two";
       "http://a.example/3" := Content "three" ]}
    ∅
    (λ _, None).

(** A link that 1001 users tweeted once each in the window. The buckets
    of the tweeters are in the order of the user ids, [u999] last, and
    [u999] is the only user the universe tracks. *)
Definition viral : universe :=
  Universe
    ((λ n, Tweet ("v" +:+ pretty n) "http://a.example/viral"
             ("u" +:+ pretty n) 110) <$> seq 0 1001)
    {[ "u999" := 10%float ]}
    {[ "http://a.example/viral" := Content "viral" ]}
    ∅
    (λ _, None).

End Sample.

Section Engine.

(** The value [math.log] returns on a positive, infinite or NaN argument
    (the C library's), and the clock:
    [get_since_now(t, time_type='minute', stringify=False)[0]]. *)
Variable log_value : float → float.
Variable minutes_since : Z → Z.

(** [math.log]: a domain error at or below zero. *)
Definition math_log (x : float) : result float :=
  if PrimFloat.leb x 0 then Raise ValueError else Ok (log_value x).

Definition convert_weight_to_score (weight : float) : result float :=
  math_log (weight * 10 + 1)%float.

(** The body of the loop over the tweeters of [score_link]. *)
Definition score_tweeter (user_weights : gmap string float)
    (acc : float * list explanation_line) (tweeter : term_bucket)
    : result (float * list explanation_line) :=
  let '(score, score_explanation) := acc in
  let user_weight := default 0%float (user_weights !! key tweeter) in
  tweeter_influence ← convert_weight_to_score user_weight;
  let score := (score + tweeter_influence)%float in
  Ok (score,
      score_explanation
        ++ [CitizenLine (key tweeter) user_weight tweeter_influence score]).

(** [for hour in range(hours_since): score *= DECAY_FACTOR] *)
Definition decay (DECAY_FACTOR : float) (hours_since : Z) (score : float)
    : float :=
  Nat.iter (Z.to_nat hours_since) (λ s, (s * DECAY_FACTOR)%float) score.

Definition score_link (l : link) (user_weights : gmap string float)
    (time_decay : bool) (hours : Z)
    : result (float * list explanation_line) :=
  '(score, score_explanation) ←
    for_loop (score_tweeter user_weights) (0%float, []) (tweeters l);
  if time_decay then
    fhours ← float_of_Z hours;
    inv ← float_div 1 fhours;
    let DECAY_FACTOR := (1 - inv)%float in
    first ← item0 (first_tweets l);
    let first_tweeted := sort0 first in
    let minutes_since := minutes_since first_tweeted in
    let hours_since := (minutes_since `div` 60)%Z in
    let orig_score := score in
    fminutes ← float_of_Z (minutes_since + 1);
    velocity ← float_div score fminutes;
    let score := decay DECAY_FACTOR hours_since score in
    let ratio :=
      if float_truth orig_score then (score / orig_score)%float
      else score in
    Ok (score,
        score_explanation ++ [DecayLine hours_since score ratio velocity])
  else Ok (score, score_explanation).

(** ** The trending query *)

(** The body of the last loop of [get_items]: the content document
    [doc] found at position [index] gets its rank, the score of the
    bucket of its url and the first tweets of that bucket. *)
Definition annotate (links : list scored) (index : nat)
    (doc : string * content) : result top_link :=
  link_match ← item0 (filter (λ l, link_key (sl_link l) = doc.1) links);
  let tweets := first_tweets (sl_link link_match) in
  first ← item0 tweets;
  Ok (TopLink doc.1 doc.2 (index + 1) (sl_score link_match)
        (sl_explanation link_match) (SinceNow (sort0 first))
        (_source <$> tweets)).

(** [get_items]; [start] and [end_] are the dates [get_query_dates]
    resolved. *)
Definition get_items (u : universe) (quantity : nat) (hours : Z)
    (start end_ : Z) (time_decay : bool) : result (list top_link) :=
  let search_limit := if time_decay then quantity * 5 else quantity * 2 in
  let links := content_buckets start end_ search_limit (tweet_docs u) in
  match links with
  | [] => Ok []
  | _ :: _ =>
      let res2 := outside_tweets (link_key <$> links) start (tweet_docs u) in
      let outside_of_range : gset string :=
        list_to_set (content_url <$> res2) in
      let links := filter (λ l, link_key l ∉ outside_of_range) links in
      match links with
      | [] => Ok []
      | _ :: _ =>
          let tweeter_ids := links ≫= (λ l, key <$> tweeters l) in
          let user_weights := get_user_weights u tweeter_ids in
          links ← for_each (λ l,
            '(s, e) ← score_link l user_weights time_decay hours;
            Ok (Scored l s e)) links;
          let sorted_links := take quantity (sorted_reverse sl_score links) in
          let top_urls := (λ l, link_key (sl_link l)) <$> sorted_links in
          let matching_links :=
            omap (λ id, (λ c, (id, c)) <$> content_docs u !! id) top_urls in
          for_each (λ p, annotate links p.1 p.2)
            (imap (λ index doc, (index, doc)) matching_links)
      end
  end.

(** The stages of [get_items] by name: the buckets that are left when
    those tweeted at or before [start] are gone, the weights looked up
    for their tweeters, and the buckets with their scores. *)
Definition candidate_links (u : universe) (quantity : nat)
    (start end_ : Z) (time_decay : bool) : list link :=
  let search_limit := if time_decay then quantity * 5 else quantity * 2 in
  let links := content_buckets start end_ search_limit (tweet_docs u) in
  let res2 := outside_tweets (link_key <$> links) start (tweet_docs u) in
  let outside_of_range : gset string :=
    list_to_set (content_url <$> res2) in
  filter (λ l, link_key l ∉ outside_of_range) links.

Definition candidate_weights (u : universe) (links : list link)
    : gmap string float :=
  get_user_weights u (links ≫= (λ l, key <$> tweeters l)).

Definition scored_links (u : universe) (quantity : nat) (hours : Z)
    (start end_ : Z) (time_decay : bool) : result (list scored) :=
  let links := candidate_links u quantity start end_ time_decay in
  for_each (λ l,
    '(s, e) ← score_link l (candidate_weights u links) time_decay hours;
    Ok (Scored l s e)) links.

(** ** The breakout detector *)

(** The test of the loop of [get_top_link]. *)
Definition breaks_out (u : universe) (cutoff : float) (l : top_link)
    : bool :=
  PrimFloat.leb cutoff (score l) && negb (bool_decide (url l ∈ top_content u)).

(** [get_top_link]; [start] and [end_] are the dates [get_query_dates]
    resolves for [hours] inside [get_items]. *)
Definition get_top_link (u : universe) (hours : Z) (quantity : nat)
    (start end_ : Z) : result (option top_link) :=
  match get_items u quantity hours start end_ true with
  | Raise IndexError => Ok None
  | Raise e => Raise e
  | Ok top_links =>
      match score_stats u hours with
      | None => Ok None
      | Some (avg, std_deviation) =>
          let cutoff := (avg + 2 * std_deviation)%float in
          Ok (find (breaks_out u cutoff) top_links)
      end
  end.

(** ** The score as the design document words it *)

(** The contribution of one author: [ln(weight*10 + 1)], with weight 0
    for an author the weight map does not hold. *)
Definition contribution (user_weights : gmap string float)
    (author : string) : float :=
  log_value (default 0 (user_weights !! author) * 10 + 1)%float.

(** The running total over the authors, from [0.0], in bucket order. *)
Definition total_contribution (user_weights : gmap string float)
    (authors : list string) : float :=
  foldl (λ total a, (total + contribution user_weights a)%float)
    0%float authors.

(** [math.log] accepts the argument it gets for this tweeter. *)
Definition log_defined (user_weights : gmap string float)
    (t : term_bucket) : Prop :=
  PrimFloat.leb (default 0 (user_weights !! key t) * 10 + 1)%float 0 = false.

(** The author an explanation line is about. *)
Definition line_tweeter (e : explanation_line) : option string :=
  match e with
  | CitizenLine k _ _ _ => Some k
  | DecayLine _ _ _ _ => None
  end.

(** The record [get_items] makes of the scored bucket [sl] whose
    content [c] was found, at position [index]. *)
Definition annotated (index : nat) (sl : scored) (c : content) : top_link :=
  TopLink (link_key (sl_link sl)) c (index + 1) (sl_score sl)
    (sl_explanation sl)
    (SinceNow (from_option sort0 0%Z (head (first_tweets (sl_link sl)))))
    (_source <$> first_tweets (sl_link sl)).

(** The scored buckets whose content document is found, with it. *)
Definition found (u : universe) (ls : list scored)
    : list (scored * content) :=
  omap (λ sl, (λ c, (sl, c)) <$> content_docs u !! link_key (sl_link sl)) ls.

(** Neither score is less than the other. *)
Definition tie (x y : float) : Prop :=
  PrimFloat.ltb x y = false ∧ PrimFloat.ltb y x = false.

(** Case analysis on the comparisons of integers and mantissas in a goal
    about the comparison of two floats. *)
Ltac compare_cases :=
  repeat match goal with
  | |- context [(?a ?= ?b)%Z] => destruct (Z.compare_spec a b)
  | |- context [PosDef.Pos.compare_cont Eq ?a ?b] =>
      change (PosDef.Pos.compare_cont Eq a b) with (Pos.compare a b);
      destruct (Pos.compare_spec a b)
  end.

(** ** Facts: scoring *)

Lemma score_tweeter_defined ws t s e :
  log_defined ws t →
  score_tweeter ws (s, e) t =
    Ok ((s + contribution ws (key t))%float,
        e ++ [CitizenLine (key t) (default 0%float (ws !! key t))
                (contribution ws (key t))
                (s + contribution ws (key t))]).
Proof.
  intros Ht. unfold score_tweeter, convert_weight_to_score, math_log.
  red in Ht. rewrite Ht. reflexivity.
Qed.

Lemma for_loop_score_tweeter ws ts s e :
  Forall (log_defined ws) ts →
  ∃ e',
    for_loop (score_tweeter ws) (s, e) ts =
      Ok (foldl (λ total a, (total + contribution ws a)%float) s
            (key <$> ts), e ++ e')
    ∧ omap line_tweeter e' = key <$> ts
    ∧ length e' = length ts.
Proof.
  intros Hdef. revert s e.
  induction Hdef as [|t ts Ht _ IH]; intros s e.
  - exists []. by rewrite app_nil_r.
  - cbn [for_loop]. rewrite score_tweeter_defined by done. cbn [mbind result_bind].
    edestruct IH as (e' & -> & Hkeys & Hlen).
    eexists (_ :: e'). rewrite <- app_assoc. cbn.
    rewrite Hkeys, Hlen. done.
Qed.

Lemma score_link_no_decay l ws hours :
  Forall (log_defined ws) (tweeters l) →
  ∃ e,
    score_link l ws false hours =
      Ok (total_contribution ws (key <$> tweeters l), e)
    ∧ omap line_tweeter e = key <$> tweeters l
    ∧ length e = length (tweeters l).
Proof.
  intros Hdef. unfold score_link.
  destruct (for_loop_score_tweeter ws (tweeters l) 0%float [] Hdef)
    as (e & -> & Hkeys & Hlen).
  by exists e.
Qed.

Lemma score_link_decay l ws hours fh first rest fm :
  Forall (log_defined ws) (tweeters l) →
  float_of_Z hours = Ok fh →
  PrimFloat.eqb fh 0 = false →
  first_tweets l = first :: rest →
  float_of_Z (minutes_since (sort0 first) + 1) = Ok fm →
  PrimFloat.eqb fm 0 = false →
  let total := total_contribution ws (key <$> tweeters l) in
  let hours_since := (minutes_since (sort0 first) `div` 60)%Z in
  let final :=
    Nat.iter (Z.to_nat hours_since) (λ s, s * (1 - 1 / fh))%float total in
  ∃ e ratio,
    score_link l ws true hours =
      Ok (final, e ++ [DecayLine hours_since final ratio (total / fm)])
    ∧ omap line_tweeter e = key <$> tweeters l
    ∧ length e = length (tweeters l).
Proof.
  intros Hdef Hfh Hnz Hfirst Hfm Hfmnz. cbv zeta. unfold score_link.
  destruct (for_loop_score_tweeter ws (tweeters l) 0%float [] Hdef)
    as (e & -> & Hkeys & Hlen).
  cbn. rewrite Hfh. cbn. unfold float_div. rewrite Hnz. cbn.
  rewrite Hfirst. cbn. rewrite Hfm. cbn. rewrite Hfmnz. cbn.
  eexists e, _. split; [reflexivity | done].
Qed.

(** ** Facts: floats *)

Lemma finite_float_cases (x : float) :
  PrimFloat.is_finite x = true →
  (∃ b, Prim2SF x = S754_zero b) ∨ (∃ b m e, Prim2SF x = S754_finite b m e).
Proof.
  unfold PrimFloat.is_finite, PrimFloat.is_nan, PrimFloat.is_infinity.
  rewrite !FloatAxioms.eqb_spec, abs_spec.
  replace (Prim2SF infinity) with (S754_infinity false) by reflexivity.
  destruct (Prim2SF x) as [b|b| |b m e]; intros H.
  - left; eauto.
  - exfalso. destruct b; cbn in H; discriminate.
  - discriminate.
  - right; eauto.
Qed.

Lemma zero_times_finite (s d : float) b :
  Prim2SF s = S754_zero b →
  PrimFloat.is_finite d = true →
  ∃ b', Prim2SF (s * d) = S754_zero b'.
Proof.
  intros Hs Hd. rewrite mul_spec, Hs.
  destruct (finite_float_cases d Hd) as [[b' ->]|(b' & m & e & ->)];
    cbn; eauto.
Qed.

Lemma decay_of_zero (d : float) (n : nat) :
  PrimFloat.is_finite d = true →
  PrimFloat.eqb (Nat.iter n (λ s, s * d)%float 0%float) 0 = true.
Proof.
  intros Hd.
  assert (∃ b, Prim2SF (Nat.iter n (λ s, s * d)%float 0%float)
               = S754_zero b) as [b Hb].
  { induction n as [|n [b IH]]; [by exists false|].
    cbn [Nat.iter]. eapply zero_times_finite; eauto. }
  rewrite FloatAxioms.eqb_spec, Hb. reflexivity.
Qed.

(** ** Facts: the order of floats *)

Lemma SFltb_asym x y : SFltb x y = true → SFltb y x = false.
Proof.
  unfold SFltb, SFcompare.
  destruct x as [[]|[]| |[] m1 e1], y as [[]|[]| |[] m2 e2]; try done;
    compare_cases; cbn; try done; try lia.
Qed.

Lemma SFltb_irrefl x : SFltb x x = false.
Proof.
  unfold SFltb, SFcompare.
  destruct x as [[]|[]| |[] m1 e1]; try done;
    compare_cases; cbn; try done; try lia.
Qed.

Lemma SFltb_negtrans x y z :
  SFeqb y y = true →
  SFltb y x = false → SFltb z y = false → SFltb z x = false.
Proof.
  unfold SFltb, SFeqb, SFcompare.
  destruct x as [[]|[]| |[] m1 e1], y as [[]|[]| |[] m2 e2],
    z as [[]|[]| |[] m3 e3]; try done;
    intros _; compare_cases; cbn; try done; try lia.
Qed.

Lemma float_ltb_asym (x y : float) :
  PrimFloat.ltb x y = true → PrimFloat.ltb y x = false.
Proof. rewrite !ltb_spec. apply SFltb_asym. Qed.

Lemma float_ltb_irrefl (x : float) : PrimFloat.ltb x x = false.
Proof. rewrite ltb_spec. apply SFltb_irrefl. Qed.

Lemma float_ltb_negtrans (x y z : float) :
  PrimFloat.is_nan y = false →
  PrimFloat.ltb y x = false → PrimFloat.ltb z y = false →
  PrimFloat.ltb z x = false.
Proof.
  unfold PrimFloat.is_nan. rewrite !ltb_spec, FloatAxioms.eqb_spec.
  intros Hy%negb_false_iff. by apply SFltb_negtrans.
Qed.

(** ** Facts: sorting *)

Section sort_facts.
Context {A K : Type} (first : K → K → bool) (key : A → K).

Lemma insert_by_perm x l : insert_by first key x l ≡ₚ x :: l.
Proof.
  induction l as [|y l IH]; cbn; [done|].
  destruct (first (key y) (key x)); [|done].
  rewrite IH. apply Permutation_swap.
Qed.

Lemma sort_by_cons x l :
  sort_by first key (x :: l) = insert_by first key x (sort_by first key l).
Proof. reflexivity. Qed.

Lemma sort_by_perm l : sort_by first key l ≡ₚ l.
Proof.
  induction l as [|x l IH]; [done|].
  by rewrite sort_by_cons, insert_by_perm, IH.
Qed.

(** Stability: elements of the list none of which has to come first
    among them keep their order. *)
Lemma insert_by_filter (p : A → Prop) `{∀ x, Decision (p x)} x l :
  (∀ y, y ∈ l → p y → p x → first (key y) (key x) = false) →
  filter p (insert_by first key x l) = filter p (x :: l).
Proof.
  induction l as [|y l IH]; intros Htie; cbn; [done|].
  destruct (first (key y) (key x)) eqn:Hyx; [|done].
  rewrite filter_cons, IH, !filter_cons.
  - destruct (decide (p y)) as [Hy|Hy], (decide (p x)) as [Hx|Hx];
      try done.
    rewrite (Htie y) in Hyx; [done|left|done..].
  - intros z Hz. apply Htie. by right.
Qed.

Lemma sort_by_filter (p : A → Prop) `{∀ x, Decision (p x)} l :
  (∀ a b, a ∈ l → b ∈ l → p a → p b → first (key a) (key b) = false) →
  filter p (sort_by first key l) = filter p l.
Proof.
  induction l as [|x l IH]; intros Htie; [done|].
  rewrite sort_by_cons, insert_by_filter.
  - rewrite !filter_cons, IH; [done|].
    intros a b Ha Hb. apply Htie; by right.
  - intros y Hy. rewrite sort_by_perm in Hy.
    apply Htie; [by right|left].
Qed.

Lemma insert_by_sorted (good : K → Prop) x l :
  (∀ a b, first a b = true → first b a = false) →
  (∀ a b c, good b →
     first b a = false → first c b = false → first c a = false) →
  Forall (λ y, good (key y)) l →
  StronglySorted (in_order first key) l →
  StronglySorted (in_order first key) (insert_by first key x l).
Proof.
  intros Hasym Htrans Hgood Hsorted.
  induction Hsorted as [|y l Hl IH Hy]; cbn.
  - repeat constructor.
  - apply Forall_cons in Hgood as [Hgy Hgl].
    destruct (first (key y) (key x)) eqn:Hyx.
    + constructor; [by apply IH|].
      rewrite insert_by_perm. constructor; [|done].
      by apply Hasym.
    + constructor; [by constructor|].
      constructor; [done|].
      eapply Forall_impl; [exact Hy|].
      intros z Hz. by apply (Htrans _ (key y)).
Qed.

Lemma sort_by_sorted (good : K → Prop) l :
  (∀ a b, first a b = true → first b a = false) →
  (∀ a b c, good b →
     first b a = false → first c b = false → first c a = false) →
  Forall (λ y, good (key y)) l →
  StronglySorted (in_order first key) (sort_by first key l).
Proof.
  intros Hasym Htrans Hgood.
  induction Hgood as [|x l Hx Hl IH]; [constructor|].
  rewrite sort_by_cons. eapply insert_by_sorted; eauto.
  by rewrite sort_by_perm.
Qed.

End sort_facts.

(** ** Facts: Python's sort *)

Section listsort_facts.
Context {A : Type} (lt : A → A → bool).

Lemma binary_insert_perm run pivot : binary_insert lt run pivot ≡ₚ pivot :: run.
Proof.
  unfold binary_insert.
  rewrite <- Permutation_middle. by rewrite take_drop.
Qed.

Lemma binarysort_perm run rest : binarysort lt run rest ≡ₚ run ++ rest.
Proof.
  unfold binarysort. revert run.
  induction rest as [|x rest IH]; intros run; cbn [foldl].
  - by rewrite app_nil_r.
  - rewrite IH, binary_insert_perm. by rewrite <- Permutation_middle.
Qed.

Lemma listsort_perm l : listsort lt l ≡ₚ l.
Proof.
  unfold listsort. destruct (count_run lt l) as [n descending].
  rewrite binarysort_perm.
  assert ((if descending then reverse (take n l) else take n l) ≡ₚ take n l)
    as -> by (destruct descending; by rewrite ?reverse_Permutation).
  by rewrite take_drop.
Qed.

(** Where [lt] is a strict weak order on the elements [good] holds of,
    the sort is the stable insertion sort. *)
Context (good : A → Prop).
Hypothesis lt_asym : ∀ x y, lt x y = true → lt y x = false.
Hypothesis lt_negtrans :
  ∀ x y z, good y → lt x y = false → lt y z = false → lt x z = false.

(** [x] goes in front of the first element it is less than. *)
Local Abbreviation insert_asc := (insert_by (λ y x, negb (lt x y)) id).
Local Abbreviation ascending := (StronglySorted (λ a b, lt b a = false)).

Lemma insert_asc_split x s1 s2 :
  Forall (λ y, lt x y = false) s1 →
  (∀ y, head s2 = Some y → lt x y = true) →
  insert_asc x (s1 ++ s2) = s1 ++ x :: s2.
Proof.
  intros Hs1 Hs2. induction Hs1 as [|y s1 Hy Hs1 IH]; cbn.
  - destruct s2 as [|y s2]; [done|]. cbn. by rewrite Hs2.
  - by rewrite Hy, IH.
Qed.

Lemma insert_asc_perm x s : insert_asc x s ≡ₚ x :: s.
Proof.
  induction s as [|y s IH]; cbn; [done|].
  destruct (lt x y); cbn; [done|]. by rewrite IH, Permutation_swap.
Qed.

Lemma insert_asc_ascending x s :
  good x → Forall good s → ascending s → ascending (insert_asc x s).
Proof.
  intros Hx Hgood Hs. induction Hs as [|y s Hs IH Hy]; cbn.
  - repeat constructor.
  - apply Forall_cons in Hgood as [Hgy Hgood].
    destruct (lt x y) eqn:Hxy; cbn.
    + constructor; [by constructor|]. constructor; [by apply lt_asym|].
      eapply Forall_impl; [exact Hy|]. intros z Hz. cbn in Hz.
      apply (lt_negtrans z y x); [done..|by apply lt_asym].
    + constructor; [by apply IH|].
      rewrite insert_asc_perm. by constructor.
Qed.

(** On an ascending run the predicate of the search, [pivot < run[i]],
    is false up to a place and true from it. *)
Lemma ascending_lookup run i j x y :
  ascending run → run !! i = Some x → run !! j = Some y → i < j →
  lt y x = false.
Proof.
  intros Hrun. revert i j.
  induction Hrun as [|z run Hrun IH Hz]; intros i j; [done|].
  destruct i as [|i], j as [|j]; cbn; try lia.
  - intros [= ->] Hy _. rewrite Forall_forall in Hz.
    apply Hz. by eapply list_elem_of_lookup_2.
  - intros Hx Hy Hij. apply (IH i j); [done..|lia].
Qed.

Lemma bisect_spec pivot run turns l r :
  ascending run → Forall good run →
  l < r → r ≤ length run → r - l ≤ turns →
  (∀ i y, i < l → run !! i = Some y → lt pivot y = false) →
  (∀ y, run !! r = Some y → lt pivot y = true) →
  let k := bisect lt pivot run turns l r in
  k ≤ length run
  ∧ (∀ i y, i < k → run !! i = Some y → lt pivot y = false)
  ∧ (∀ y, run !! k = Some y → lt pivot y = true).
Proof.
  intros Hrun Hgood. cbv zeta. revert l r.
  induction turns as [|turns IH]; intros l r Hlr Hr Hturns Hleft Hright;
    [lia|].
  cbn [bisect].
  assert ((r - l) `div` 2 < r - l) as Hhalf by (apply Nat.div_lt; lia).
  generalize dependent ((r - l) `div` 2). intros half Hhalf.
  set (p := l + half).
  assert (l ≤ p < r) as Hp by lia.
  destruct (run !! p) as [x|] eqn:Hx;
    [|apply lookup_ge_None in Hx; lia].
  change (default pivot (Some x)) with x.
  destruct (lt pivot x) eqn:Hpx.
  - destruct (l <? p) eqn:Hlp.
    + apply Nat.ltb_lt in Hlp. apply IH; try done; try lia.
      intros y Hy. by simplify_eq.
    + apply Nat.ltb_ge in Hlp. assert (l = p) as <- by lia.
      split; [lia|]. split; [done|]. intros y Hy. by simplify_eq.
  - assert (∀ i y, i < S p → run !! i = Some y → lt pivot y = false)
      as Hleft'.
    { intros i y Hi Hy. destruct (decide (i = p)) as [->|Hne].
      { by simplify_eq. }
      apply (lt_negtrans pivot x y); [|done|].
      - rewrite Forall_forall in Hgood. apply Hgood.
        by eapply list_elem_of_lookup_2.
      - apply (ascending_lookup run i p y x); [done..|lia]. }
    destruct (S p <? r) eqn:Hpr.
    + apply Nat.ltb_lt in Hpr. apply IH; try done; lia.
    + apply Nat.ltb_ge in Hpr. assert (r = S p) as Heq by lia.
      rewrite <- Heq. split; [done|]. split; [|done].
      by rewrite Heq.
Qed.

Lemma binary_insert_insert run pivot :
  ascending run → Forall good run →
  binary_insert lt run pivot = insert_asc pivot run.
Proof.
  intros Hrun Hgood. unfold binary_insert.
  destruct run as [|y run'] eqn:Hrun'; [done|]. rewrite <- Hrun' in *.
  destruct (bisect_spec pivot run (length run) 0 (length run))
    as (Hk & Hleft & Hright); try done; try lia.
  { rewrite Hrun'. cbn. lia. }
  { intros y' Hy'. apply lookup_lt_Some in Hy'. lia. }
  set (k := bisect lt pivot run (length run) 0 (length run)) in *.
  rewrite <- (take_drop k run) at 3.
  symmetry. apply insert_asc_split.
  - apply Forall_forall. intros z Hz.
    apply list_elem_of_lookup in Hz as [i Hi].
    apply lookup_take_Some in Hi as [Hi Hik]. by eapply Hleft.
  - intros z Hz. rewrite head_lookup, lookup_drop, Nat.add_0_r in Hz.
    by apply Hright.
Qed.

Lemma binarysort_insert run rest :
  ascending run → Forall good run → Forall good rest →
  binarysort lt run rest = foldl (λ s x, insert_asc x s) run rest.
Proof.
  unfold binarysort. intros Hrun Hgood Hrest. revert run Hrun Hgood.
  induction Hrest as [|x rest Hx Hrest IH]; intros run Hrun Hgood; [done|].
  cbn [foldl]. rewrite binary_insert_insert by done.
  apply IH; [by apply insert_asc_ascending|].
  rewrite insert_asc_perm. by constructor.
Qed.

Lemma insert_asc_ascending_run run :
  ascending run → foldl (λ s x, insert_asc x s) [] run = run.
Proof.
  induction run as [|x run IH] using rev_ind; [done|].
  intros Hrun. rewrite foldl_app. cbn [foldl].
  apply StronglySorted_app in Hrun as (Hx & Hrun & _).
  rewrite IH by done.
  rewrite <- (app_nil_r run) at 1. apply insert_asc_split; [|done].
  apply Forall_forall. intros y Hy. apply (Hx y x Hy). by left.
Qed.

Lemma run_ascending_ascending prev l :
  Forall good (prev :: l) →
  ascending (prev :: take (run_ascending lt prev l) l).
Proof.
  revert prev. induction l as [|x l IH]; intros prev Hgood; cbn.
  { repeat constructor. }
  apply Forall_cons in Hgood as [Hprev Hgood].
  destruct (lt x prev) eqn:Hx; cbn; [repeat constructor|].
  specialize (IH x Hgood). constructor; [done|].
  constructor; [done|].
  apply StronglySorted_inv in IH as [_ IH].
  eapply Forall_impl; [exact IH|]. intros z Hz. cbn in Hz.
  apply Forall_cons in Hgood as [Hgx _].
  by apply (lt_negtrans z x prev).
Qed.

Lemma run_descending_insert prev l s :
  foldl (λ s x, insert_asc x s) (prev :: s)
      (take (run_descending lt prev l) l)
    = reverse (take (run_descending lt prev l) l) ++ prev :: s.
Proof.
  revert prev s.
  induction l as [|x l IH]; intros prev s; cbn [run_descending]; [done|].
  destruct (lt x prev) eqn:Hx; [|done].
  cbn [take foldl insert_by id]. rewrite Hx. cbn [negb].
  rewrite IH, reverse_cons. by rewrite <- app_assoc.
Qed.

Lemma run_descending_ascending prev l s :
  Forall good (prev :: l) → ascending (prev :: s) →
  ascending (reverse (take (run_descending lt prev l) l) ++ prev :: s).
Proof.
  revert prev s.
  induction l as [|x l IH]; intros prev s Hgood Hs; cbn [run_descending];
    [done|].
  apply Forall_cons in Hgood as [Hprev Hgood].
  destruct (lt x prev) eqn:Hx; [|done].
  cbn [take]. rewrite reverse_cons, <- app_assoc. cbn [app].
  apply IH; [done|].
  constructor; [done|].
  apply StronglySorted_inv in Hs as [_ Hs].
  constructor; [by apply lt_asym|].
  eapply Forall_impl; [exact Hs|]. intros z Hz. cbn in Hz.
  apply (lt_negtrans z prev x); [done..|by apply lt_asym].
Qed.

Lemma foldl_take_drop {B} (f : B → A → B) (b : B) n l :
  foldl f b l = foldl f (foldl f b (take n l)) (drop n l).
Proof. by rewrite <- foldl_app, take_drop. Qed.

Lemma listsort_insert l :
  Forall good l →
  listsort lt l = foldl (λ s x, insert_asc x s) [] l.
Proof.
  intros Hgood. unfold listsort.
  destruct l as [|x [|y l]]; [done..|]. cbn [count_run].
  apply Forall_cons in Hgood as [Hx Hgood].
  apply Forall_cons in Hgood as [Hy Hgood].
  change (foldl (λ s x, insert_asc x s) [] (x :: y :: l))
    with (foldl (λ s x, insert_asc x s) (insert_asc y [x]) l).
  cbn [insert_by id].
  destruct (lt y x) eqn:Hyx; cbn [negb].
  - set (n := run_descending lt y l).
    change (take (2 + n) (x :: y :: l)) with (x :: y :: take n l).
    change (drop (2 + n) (x :: y :: l)) with (drop n l).
    rewrite (foldl_take_drop _ _ n l). unfold n.
    rewrite run_descending_insert.
    rewrite !reverse_cons, <- !app_assoc. cbn [app].
    apply binarysort_insert.
    + apply run_descending_ascending; [by constructor|].
      repeat constructor. by apply lt_asym.
    + rewrite Forall_app, Forall_reverse. split; [by apply Forall_take|].
      by repeat constructor.
    + by apply Forall_drop.
  - set (n := run_ascending lt y l).
    change (take (2 + n) (x :: y :: l)) with (x :: y :: take n l).
    change (drop (2 + n) (x :: y :: l)) with (drop n l).
    assert (ascending (x :: y :: take n l)) as Hrun.
    { pose proof (run_ascending_ascending x (y :: l)) as Hrun.
      cbn [run_ascending] in Hrun. rewrite Hyx in Hrun.
      apply Hrun. by repeat constructor. }
    assert (Forall good (x :: y :: take n l)) as Hgrun.
    { repeat (constructor; [done|]). by apply Forall_take. }
    rewrite (foldl_take_drop _ _ n l).
    assert (foldl (λ s x, insert_asc x s) [x; y] (take n l)
              = x :: y :: take n l) as ->.
    { pose proof (insert_asc_ascending_run _ Hrun) as Hfold.
      cbn [foldl insert_by id] in Hfold. by rewrite Hyx in Hfold. }
    apply binarysort_insert; [done..|]. by apply Forall_drop.
Qed.

(** Reversed, the ascending insertion is the descending one: [x] goes
    behind the elements it is less than. *)
Local Abbreviation insert_desc := (insert_by (λ y x, lt x y) id).

Lemma insert_desc_snoc x l y :
  lt x y = false → insert_desc x (l ++ [y]) = insert_desc x l ++ [y].
Proof.
  intros Hxy. induction l as [|z l IH]; cbn; [by rewrite Hxy|].
  destruct (lt x z); cbn; [by rewrite IH|done].
Qed.

Lemma insert_desc_behind x l1 l2 :
  Forall (λ z, lt x z = true) l1 →
  insert_desc x (l1 ++ l2) = l1 ++ insert_desc x l2.
Proof.
  induction 1 as [|z l1 Hz _ IH]; cbn; [done|]. by rewrite Hz, IH.
Qed.

Lemma insert_asc_reverse x s :
  good x → Forall good s → ascending s →
  reverse (insert_asc x s) = insert_desc x (reverse s).
Proof.
  intros Hx Hgood Hs. induction Hs as [|y s Hs IH Hy]; [done|].
  apply Forall_cons in Hgood as [Hgy Hgood]. cbn [insert_by id].
  destruct (lt x y) eqn:Hxy; cbn [negb].
  - rewrite !reverse_cons, <- app_assoc. cbn [app].
    rewrite insert_desc_behind; [by cbn; rewrite Hxy|].
    apply Forall_reverse, Forall_forall. intros z Hz.
    rewrite Forall_forall in Hy, Hgood.
    destruct (lt x z) eqn:Hxz; [done|].
    rewrite (lt_negtrans x z y) in Hxy; [done|by apply Hgood|done|].
    by apply Hy.
  - rewrite !reverse_cons, IH by done. by rewrite insert_desc_snoc.
Qed.

Lemma foldl_reverse {B} (f : B → A → B) (b : B) l :
  foldl f b (reverse l) = foldr (λ x s, f s x) b l.
Proof.
  induction l as [|x l IH]; [done|].
  by rewrite reverse_cons, foldl_snoc, IH.
Qed.

Lemma listsort_reverse l :
  Forall good l →
  reverse (listsort lt (reverse l)) = sort_by (λ y x, lt x y) id l.
Proof.
  intros Hgood. rewrite listsort_insert by by apply Forall_reverse.
  rewrite foldl_reverse. fold (sort_by (λ y x, negb (lt x y)) id l).
  assert (ascending (sort_by (λ y x, negb (lt x y)) id l)
          ∧ reverse (sort_by (λ y x, negb (lt x y)) id l)
              = sort_by (λ y x, lt x y) id l) as [_ ?]; [|done].
  induction Hgood as [|x l Hx Hgood [IHs IH]]; [by split; [constructor|]|].
  assert (Forall good (sort_by (λ y x, negb (lt x y)) id l)) as Hgood'.
  { by rewrite sort_by_perm. }
  rewrite !sort_by_cons. split; [by apply insert_asc_ascending|].
  rewrite insert_asc_reverse by done. by rewrite IH.
Qed.

End listsort_facts.

Lemma insert_by_key {A K} (first : K → K → bool) (key : A → K) x l :
  insert_by first key x l
    = insert_by (λ a b, first (key a) (key b)) id x l.
Proof. induction l as [|y l IH]; cbn; [done|]. by rewrite IH. Qed.

Lemma sorted_reverse_perm {A} (key : A → float) l :
  sorted_reverse key l ≡ₚ l.
Proof.
  unfold sorted_reverse.
  by rewrite reverse_Permutation, listsort_perm, reverse_Permutation.
Qed.

(** With no NaN among the keys Python's sort is the stable descending
    sort. *)
Lemma sorted_reverse_stable {A} (key : A → float) l :
  Forall (λ x, PrimFloat.is_nan (key x) = false) l →
  sorted_reverse key l = sort_by (λ ky kx, PrimFloat.ltb kx ky) key l.
Proof.
  intros Hl. unfold sorted_reverse.
  rewrite (listsort_reverse _ (λ x, PrimFloat.is_nan (key x) = false));
    [|intros x y; apply float_ltb_asym| |done].
  - clear Hl. induction l as [|x l IH]; [done|].
    rewrite !sort_by_cons, IH. symmetry. apply insert_by_key.
  - intros x y z Hy Hxy Hyz. by apply (float_ltb_negtrans _ (key y)).
Qed.

(** ** Facts: the aggregations *)

Section bucket_facts.
Context {A : Type} (field : A → string) (min_doc_count : nat)
  (docs : list A).

Lemma buckets_elem b :
  b ∈ buckets field min_doc_count docs →
  b.2 = filter (λ d, field d = b.1) docs
  ∧ min_doc_count ≤ length b.2
  ∧ b.1 ∈ field <$> docs.
Proof.
  unfold buckets. rewrite list_elem_of_filter, !sort_by_perm.
  intros [Hmin Hb]. apply list_elem_of_fmap in Hb as (k & -> & Hk).
  rewrite elem_of_remove_dups in Hk. done.
Qed.

Lemma buckets_NoDup : NoDup (buckets field min_doc_count docs).*1.
Proof.
  unfold buckets.
  eapply sublist_NoDup; [|apply fmap_sublist, sublist_filter].
  rewrite !sort_by_perm, <- list_fmap_compose.
  rewrite (list_fmap_ext _ id) by done.
  rewrite list_fmap_id. apply NoDup_remove_dups.
Qed.

Lemma terms_sublist size :
  terms field size min_doc_count docs
    `sublist_of` buckets field min_doc_count docs.
Proof. apply sublist_take. Qed.

Lemma terms_elem size b :
  b ∈ terms field size min_doc_count docs →
  b.2 = filter (λ d, field d = b.1) docs
  ∧ min_doc_count ≤ length b.2
  ∧ b.1 ∈ field <$> docs.
Proof.
  intros Hb. apply buckets_elem.
  eapply elem_of_sublist; [done|apply terms_sublist].
Qed.

Lemma terms_NoDup size :
  NoDup (terms field size min_doc_count docs).*1.
Proof.
  eapply sublist_NoDup; [|apply fmap_sublist, terms_sublist].
  apply buckets_NoDup.
Qed.

Lemma terms_length size :
  length (terms field size min_doc_count docs) ≤ size.
Proof. unfold terms. rewrite length_take. lia. Qed.

End bucket_facts.

Lemma top_hits_length size docs :
  length (top_hits size docs) = size `min` length docs.
Proof.
  unfold top_hits. rewrite length_fmap, length_take.
  by rewrite (Permutation_length (sort_by_perm _ _ _)).
Qed.

(** The first hit is the earliest of the documents. *)
Lemma top_hits_earliest size docs h rest :
  top_hits size docs = h :: rest →
  _source h ∈ docs ∧ sort0 h = created (_source h)
  ∧ ∀ t, t ∈ docs → (sort0 h ≤ created t)%Z.
Proof.
  unfold top_hits. intros Hh.
  assert (StronglySorted (in_order Z.ltb created) (sort_by Z.ltb created docs))
    as Hsorted.
  { apply (sort_by_sorted _ _ (λ _, True)); [lia..|].
    by apply Forall_true. }
  destruct (sort_by Z.ltb created docs) as [|t0 ts] eqn:Hs.
  { by rewrite take_nil in Hh. }
  destruct size as [|size]; [done|]. cbn in Hh. injection Hh as <- _.
  cbn. split; [|split; [done|]].
  - rewrite <- (sort_by_perm Z.ltb created docs), Hs. left.
  - intros t Ht. rewrite <- (sort_by_perm Z.ltb created docs), Hs in Ht.
    apply StronglySorted_inv in Hsorted as [_ Hall].
    apply elem_of_cons in Ht as [->|Ht]; [lia|].
    rewrite Forall_forall in Hall. specialize (Hall _ Ht).
    unfold in_order in Hall. lia.
Qed.

(** What the aggregation says about a bucket of [get_items]. *)
Lemma content_buckets_elem start end_ search_limit docs l :
  l ∈ content_buckets start end_ search_limit docs →
  let ds :=
    filter (λ t, content_url t = link_key l) (recent_tweets start end_ docs)
  in
  2 ≤ length ds
  ∧ link_doc_count l = length ds
  ∧ tweeters l = tweeters_of ds
  ∧ first_tweets l = top_hits 3 ds.
Proof.
  unfold content_buckets. intros Hl.
  apply list_elem_of_fmap in Hl as ([k ds] & -> & Hb).
  apply terms_elem in Hb as (Hds & Hmin & _). cbn in *.
  by rewrite <- Hds.
Qed.

Lemma content_buckets_NoDup start end_ search_limit docs :
  NoDup (link_key <$> content_buckets start end_ search_limit docs).
Proof.
  unfold content_buckets. rewrite <- list_fmap_compose.
  apply (terms_NoDup content_url 2).
Qed.

Lemma content_buckets_length start end_ search_limit docs :
  length (content_buckets start end_ search_limit docs) ≤ search_limit.
Proof.
  unfold content_buckets. rewrite length_fmap. apply terms_length.
Qed.

(** At most 1000 tweeters, the first of all the user buckets. *)
Lemma tweeters_of_take docs :
  tweeters_of docs =
    take 1000 ((λ b, TermBucket b.1 (length b.2)) <$> buckets user_id 1 docs).
Proof. unfold tweeters_of, terms. by rewrite fmap_take. Qed.

Lemma tweeters_of_NoDup docs : NoDup (key <$> tweeters_of docs).
Proof.
  unfold tweeters_of. rewrite <- list_fmap_compose.
  apply (terms_NoDup user_id 1).
Qed.

(** ** Facts: the score of a link *)

(** C5, as amended. With no contributing author and decay disabled
    [score_link] returns [(0.0, [])]. With decay enabled the decay step
    is not skipped: when the window is not zero, a first tweet is there
    and the elapsed minutes are not -1, the score is [0.0] multiplied by
    the decay factor once per elapsed hour (a zero for every finite
    factor), and the explanation holds exactly one line, the decay
    line. *)
Theorem score_link_no_tweeters l ws hours :
  tweeters l = [] →
  score_link l ws false hours = Ok (0%float, [])
  ∧ ∀ fh first rest fm,
      float_of_Z hours = Ok fh →
      PrimFloat.eqb fh 0 = false →
      first_tweets l = first :: rest →
      float_of_Z (minutes_since (sort0 first) + 1) = Ok fm →
      PrimFloat.eqb fm 0 = false →
      let hours_since := (minutes_since (sort0 first) `div` 60)%Z in
      let final :=
        Nat.iter (Z.to_nat hours_since) (λ s, s * (1 - 1 / fh))%float
          0%float in
      score_link l ws true hours =
        Ok (final, [DecayLine hours_since final final (0 / fm)])
      ∧ (PrimFloat.is_finite (1 - 1 / fh) = true →
         PrimFloat.eqb final 0 = true).
Proof.
  intros Hnil. unfold score_link. rewrite Hnil. cbn [for_loop].
  split; [done|].
  intros fh first rest fm Hfh Hnz Hfirst Hfm Hfmnz. cbn.
  rewrite Hfh. cbn. unfold float_div. rewrite Hnz. cbn.
  rewrite Hfirst. cbn. rewrite Hfm. cbn. rewrite Hfmnz. cbn.
  split; [done|]. apply decay_of_zero.
Qed.

(** C6, as amended. With decay enabled a window below one hour does not
    skip the decay step. Once the loop over the tweeters is through, a
    window of 0 hours raises [ZeroDivisionError]; for any other window
    [h] (a negative one too) the total is multiplied by [1 - 1/h] once
    per elapsed hour. *)
Theorem score_link_window_below_one l ws hours :
  (hours < 1)%Z →
  Forall (log_defined ws) (tweeters l) →
  (hours = 0%Z → score_link l ws true hours = Raise ZeroDivisionError)
  ∧ ∀ fh first rest fm,
      float_of_Z hours = Ok fh →
      PrimFloat.eqb fh 0 = false →
      first_tweets l = first :: rest →
      float_of_Z (minutes_since (sort0 first) + 1) = Ok fm →
      PrimFloat.eqb fm 0 = false →
      ∃ e,
        score_link l ws true hours =
          Ok (Nat.iter (Z.to_nat (minutes_since (sort0 first) `div` 60))
                (λ s, s * (1 - 1 / fh))%float
                (total_contribution ws (key <$> tweeters l)), e).
Proof.
  intros _ Hdef. split.
  - intros ->. unfold score_link.
    destruct (for_loop_score_tweeter ws (tweeters l) 0%float [] Hdef)
      as (e & -> & _). reflexivity.
  - intros fh first rest fm Hfh Hnz Hfirst Hfm Hfmnz.
    destruct (score_link_decay l ws hours fh first rest fm)
      as (e & ratio & -> & _); eauto.
Qed.

(** ** Facts: the stages of [get_items] *)

Lemma for_each_Ok {A B} (f : A → result B) l ys :
  for_each f l = Ok ys ↔ Forall2 (λ x y, f x = Ok y) l ys.
Proof.
  revert ys. induction l as [|x l IH]; intros ys; cbn.
  - split; [intros [= <-]; constructor | by inversion 1].
  - split.
    + destruct (f x) as [y|e] eqn:Hx; [|done]. cbn.
      destruct (for_each f l) as [ys'|e] eqn:Hl; [|done]. cbn.
      intros [= <-]. constructor; [done|]. by apply IH.
    + inversion 1 as [|? y ? ys' Hy Hys]; subst.
      apply IH in Hys. by rewrite Hy, Hys.
Qed.

Lemma filter_key_absent {A} (f : A → string) (l : list A) k :
  k ∉ f <$> l → filter (λ y, f y = k) l = [].
Proof.
  induction l as [|y l IH]; [done|].
  rewrite fmap_cons, not_elem_of_cons. intros [Hne Hk].
  rewrite filter_cons, decide_False by done. by apply IH.
Qed.

Lemma filter_key_NoDup {A} (f : A → string) (l : list A) x :
  NoDup (f <$> l) → x ∈ l → filter (λ y, f y = f x) l = [x].
Proof.
  induction l as [|y l IH]; intros Hnd Hx; [by apply elem_of_nil in Hx|].
  rewrite fmap_cons in Hnd. apply NoDup_cons in Hnd as [Hy Hnd].
  rewrite filter_cons. apply elem_of_cons in Hx as [->|Hx].
  - rewrite decide_True by done. f_equal. by apply filter_key_absent.
  - rewrite decide_False; [by apply IH|].
    intros Heq. apply Hy. rewrite Heq. by apply list_elem_of_fmap_2.
Qed.

(** [get_items] is the scoring of the candidates followed by the
    sort, the cut, the lookup of the content and the last loop. *)
Lemma get_items_stages u quantity hours start end_ time_decay :
  get_items u quantity hours start end_ time_decay =
    ls ← scored_links u quantity hours start end_ time_decay;
    for_each (λ p, annotate ls p.1 p.2)
      (imap (λ index doc, (index, doc))
         (omap (λ id, (λ c, (id, c)) <$> content_docs u !! id)
            ((λ l, link_key (sl_link l))
               <$> take quantity (sorted_reverse sl_score ls)))).
Proof.
  unfold get_items, scored_links, candidate_links, candidate_weights.
  destruct (content_buckets _ _ _ _) as [|l0 links] eqn:Hlinks.
  { cbn. by rewrite take_nil. }
  destruct (filter _ (l0 :: links)) as [|l1 cands] eqn:Hcands.
  { cbn. by rewrite take_nil. }
  reflexivity.
Qed.

(** What the scoring loop leaves: one scored link per candidate, in
    order. *)
Lemma scored_links_Ok u quantity hours start end_ time_decay ls :
  scored_links u quantity hours start end_ time_decay = Ok ls →
  let links := candidate_links u quantity start end_ time_decay in
  sl_link <$> ls = links
  ∧ Forall (λ sl,
      score_link (sl_link sl) (candidate_weights u links) time_decay hours
        = Ok (sl_score sl, sl_explanation sl)) ls.
Proof.
  unfold scored_links. cbv zeta.
  generalize (candidate_weights u
                (candidate_links u quantity start end_ time_decay)).
  intros ws. rewrite for_each_Ok.
  induction 1 as [|l sl links ls Hsl _ [IH1 IH2]]; [done|].
  destruct (score_link l ws time_decay hours) as [[s e]|] eqn:Hs;
    [|done]. cbn in Hsl. injection Hsl as <-. cbn.
  split; [by rewrite IH1|]. by constructor.
Qed.

Lemma candidate_links_sublist u quantity start end_ time_decay :
  candidate_links u quantity start end_ time_decay
    `sublist_of`
  content_buckets start end_
    (if time_decay then quantity * 5 else quantity * 2) (tweet_docs u).
Proof. apply sublist_filter. Qed.

Lemma candidate_links_NoDup u quantity start end_ time_decay :
  NoDup (link_key <$> candidate_links u quantity start end_ time_decay).
Proof.
  eapply sublist_NoDup;
    [|apply fmap_sublist, candidate_links_sublist].
  apply content_buckets_NoDup.
Qed.

Lemma candidate_links_elem u quantity start end_ time_decay l :
  l ∈ candidate_links u quantity start end_ time_decay →
  let ds :=
    filter (λ t, content_url t = link_key l)
      (recent_tweets start end_ (tweet_docs u)) in
  2 ≤ length ds
  ∧ link_doc_count l = length ds
  ∧ tweeters l = tweeters_of ds
  ∧ first_tweets l = top_hits 3 ds.
Proof.
  intros Hl. eapply content_buckets_elem.
  eapply elem_of_sublist; [done|apply candidate_links_sublist].
Qed.

Lemma candidate_links_first_tweets u quantity start end_ time_decay l :
  l ∈ candidate_links u quantity start end_ time_decay →
  first_tweets l ≠ [].
Proof.
  intros (Hlen & _ & _ & Hfirst)%candidate_links_elem Hnil.
  apply (f_equal length) in Hfirst.
  rewrite Hnil, top_hits_length in Hfirst. cbn [length] in Hfirst. lia.
Qed.

Lemma annotate_found ls index sl c :
  NoDup ((λ l, link_key (sl_link l)) <$> ls) →
  sl ∈ ls →
  first_tweets (sl_link sl) ≠ [] →
  annotate ls index (link_key (sl_link sl), c) = Ok (annotated index sl c).
Proof.
  intros Hnd Hsl Hfirst. unfold annotate, annotated. cbn.
  rewrite (filter_key_NoDup (λ l, link_key (sl_link l))) by done. cbn.
  destruct (first_tweets (sl_link sl)) as [|h hs]; done.
Qed.

Lemma last_loop u ls sls n :
  NoDup ((λ l, link_key (sl_link l)) <$> ls) →
  (∀ sl, sl ∈ sls → sl ∈ ls ∧ first_tweets (sl_link sl) ≠ []) →
  for_each (λ p, annotate ls p.1 p.2)
    (imap (λ index doc, (n + index, doc))
       (omap (λ id, (λ c, (id, c)) <$> content_docs u !! id)
          ((λ l, link_key (sl_link l)) <$> sls)))
  = Ok (imap (λ index p, annotated (n + index) p.1 p.2) (found u sls)).
Proof.
  intros Hnd. revert n. induction sls as [|sl sls IH]; intros n Hin; [done|].
  unfold found. cbn.
  destruct (content_docs u !! link_key (sl_link sl)) as [c|] eqn:Hc; cbn.
  - destruct (Hin sl) as [Hsl Hfirst]; [left|].
    rewrite annotate_found by done. cbn.
    rewrite (imap_ext _ (λ index doc, (S n + index, doc))), IH.
    + cbn. do 2 f_equal. apply imap_ext. intros i p _. cbn.
      by rewrite Nat.add_succ_r.
    + intros sl' Hsl'. apply Hin. by right.
    + intros i p _. cbn. by rewrite Nat.add_succ_r.
  - apply IH. intros sl' Hsl'. apply Hin. by right.
Qed.

(** Once the candidates are scored [get_items] returns, and what it
    returns is the sorted, cut list of those whose content is found,
    each with its position. *)
Lemma get_items_returns u quantity hours start end_ time_decay ls :
  scored_links u quantity hours start end_ time_decay = Ok ls →
  get_items u quantity hours start end_ time_decay =
    Ok (imap (λ index p, annotated index p.1 p.2)
          (found u (take quantity (sorted_reverse sl_score ls)))).
Proof.
  intros Hls. rewrite get_items_stages, Hls. cbn.
  apply scored_links_Ok in Hls as [Hlinks Hscores].
  rewrite (last_loop u ls _ 0).
  - done.
  - pose proof (candidate_links_NoDup u quantity start end_ time_decay)
      as Hnd.
    by rewrite <- Hlinks, <- list_fmap_compose in Hnd.
  - intros sl Hsl.
    assert (sl ∈ ls) as Hin.
    { eapply elem_of_sublist in Hsl; [|apply sublist_take].
      by rewrite sorted_reverse_perm in Hsl. }
    split; [done|].
    eapply candidate_links_first_tweets. rewrite <- Hlinks.
    by apply list_elem_of_fmap_2.
Qed.

(** ** Facts: lists in order *)

Lemma filter_sublist_mono {A} (P : A → Prop) `{∀ x, Decision (P x)} l1 l2 :
  l1 `sublist_of` l2 → filter P l1 `sublist_of` filter P l2.
Proof.
  induction 1 as [|x l1 l2 _ IH|x l1 l2 _ IH]; [done|..];
    rewrite ?filter_cons; destruct (decide (P x)); try done.
  - by constructor.
  - by constructor.
Qed.

Lemma StronglySorted_sublist {A} (R : relation A) l1 l2 :
  l1 `sublist_of` l2 → StronglySorted R l2 → StronglySorted R l1.
Proof.
  induction 1 as [|x l1 l2 Hsub IH|x l1 l2 Hsub IH]; [done|..];
    rewrite !StronglySorted_cons; intros [Hall Hsorted].
  - split; [|by apply IH]. rewrite Forall_forall in Hall |- *.
    intros y Hy. apply Hall. by eapply elem_of_sublist.
  - by apply IH.
Qed.

Lemma StronglySorted_of_fmap {A B} (f : A → B) (R : relation B) l :
  StronglySorted R (f <$> l) → StronglySorted (λ a b, R (f a) (f b)) l.
Proof.
  induction l as [|x l IH]; [constructor|].
  rewrite fmap_cons, !StronglySorted_cons, Forall_fmap.
  intros [Hall Hsorted]. split; [done|by apply IH].
Qed.

Lemma insert_by_fmap {A B K} (first : K → K → bool) (key : B → K)
    (f : A → B) x l :
  insert_by first key (f x) (f <$> l)
    = f <$> insert_by first (key ∘ f) x l.
Proof.
  induction l as [|y l IH]; [done|]. cbn.
  destruct (first (key (f y)) (key (f x))); [|done].
  by rewrite IH.
Qed.

Lemma sort_by_fmap {A B K} (first : K → K → bool) (key : B → K)
    (f : A → B) l :
  sort_by first key (f <$> l) = f <$> sort_by first (key ∘ f) l.
Proof.
  induction l as [|x l IH]; [done|].
  by rewrite fmap_cons, !sort_by_cons, IH, insert_by_fmap.
Qed.

Lemma found_fst_sublist u sls : (found u sls).*1 `sublist_of` sls.
Proof.
  induction sls as [|sl sls IH]; [done|]. unfold found. cbn.
  destruct (content_docs u !! link_key (sl_link sl)); cbn;
    by constructor.
Qed.

Lemma found_elem u sls sl c :
  (sl, c) ∈ found u sls →
  sl ∈ sls ∧ content_docs u !! link_key (sl_link sl) = Some c.
Proof.
  unfold found. rewrite list_elem_of_omap. intros (sl' & Hsl' & Hc).
  destruct (content_docs u !! link_key (sl_link sl')) eqn:Hc';
    by simplify_eq/=.
Qed.

Lemma fmap_imap_const {A B C} (f : B → C) (g : nat → A → B) (h : A → C)
    (l : list A) :
  (∀ i x, f (g i x) = h x) → f <$> imap g l = h <$> l.
Proof.
  intros Hfg. rewrite fmap_imap, <- imap_const.
  apply imap_ext. intros i x _. apply Hfg.
Qed.

Lemma imap_index {A} (l : list A) k :
  imap (λ i _, k + i) l = seq k (length l).
Proof.
  revert k. induction l as [|x l IH]; intros k; [done|].
  rewrite imap_cons. cbn. rewrite Nat.add_0_r. f_equal.
  rewrite <- IH. apply imap_ext. intros i y _. cbn. lia.
Qed.

Lemma annotated_rank (F : list (scored * content)) :
  rank <$> imap (λ index p, annotated index p.1 p.2) F = seq 1 (length F).
Proof.
  rewrite fmap_imap, <- imap_index.
  apply imap_ext. intros i p _. cbn. lia.
Qed.

(** The links of [get_items] keep the order of the sorted, cut list of
    scored buckets, with the urls and the scores of these. *)
Lemma annotated_url_score (F : list (scored * content)) :
  (λ r, (url r, score r)) <$> imap (λ index p, annotated index p.1 p.2) F
    = (λ sl, (link_key (sl_link sl), sl_score sl)) <$> F.*1.
Proof.
  rewrite <- list_fmap_compose. by apply fmap_imap_const.
Qed.

Lemma get_items_Ok_inv u quantity hours start end_ time_decay out :
  get_items u quantity hours start end_ time_decay = Ok out →
  ∃ ls,
    scored_links u quantity hours start end_ time_decay = Ok ls
    ∧ out = imap (λ index p, annotated index p.1 p.2)
              (found u (take quantity (sorted_reverse sl_score ls))).
Proof.
  intros Hout.
  destruct (scored_links u quantity hours start end_ time_decay)
    as [ls|e] eqn:Hls.
  - exists ls. split; [done|].
    rewrite (get_items_returns _ _ _ _ _ _ ls) in Hout by done.
    by injection Hout.
  - by rewrite get_items_stages, Hls in Hout.
Qed.

Lemma NoDup_fmap_eq {A} (f : A → string) (l : list A) x y :
  NoDup (f <$> l) → x ∈ l → y ∈ l → f x = f y → x = y.
Proof.
  intros Hnd Hx Hy Hxy.
  assert (x ∈ filter (λ z, f z = f y) l) as Hin.
  { by apply list_elem_of_filter. }
  rewrite filter_key_NoDup in Hin by done.
  by apply list_elem_of_singleton in Hin.
Qed.

(** In Python's descending sort two elements that tie keep the order
    they had, when no key is NaN. *)
Lemma sorted_reverse_ties (l : list (string * float)) a b :
  NoDup l.*1 →
  Forall (λ x, PrimFloat.is_nan x.2 = false) l →
  [a; b] `sublist_of` sorted_reverse snd l →
  tie a.2 b.2 →
  [a; b] `sublist_of` l.
Proof.
  intros Hnd Hnan Hsub [Hab Hba].
  rewrite sorted_reverse_stable in Hsub by done.
  assert (a ∈ l ∧ b ∈ l) as [Ha Hb].
  { split; rewrite <- (sort_by_perm (λ ky kx, PrimFloat.ltb kx ky) snd l);
      (eapply elem_of_sublist; [|exact Hsub]); set_solver. }
  set (p := λ x : string * float, x.1 = a.1 ∨ x.1 = b.1).
  assert (∀ x, x ∈ l → p x → x = a ∨ x = b) as Hp.
  { intros x Hx [Hxa|Hxb]; [left|right]; by eapply NoDup_fmap_eq. }
  apply (filter_sublist_mono p) in Hsub.
  rewrite sort_by_filter in Hsub.
  - etrans; [|apply (sublist_filter p)].
    rewrite !filter_cons, filter_nil in Hsub.
    rewrite !decide_True in Hsub by (unfold p; auto). done.
  - intros x y Hx Hy Hpx Hpy.
    destruct (Hp x Hx Hpx) as [->| ->], (Hp y Hy Hpy) as [->| ->];
      auto using float_ltb_irrefl.
Qed.

(** ** Facts: the trending query *)

Lemma scored_links_keys u quantity hours start end_ time_decay ls :
  scored_links u quantity hours start end_ time_decay = Ok ls →
  (λ sl, link_key (sl_link sl)) <$> ls
    = link_key <$> candidate_links u quantity start end_ time_decay.
Proof.
  intros [Hlinks _]%scored_links_Ok.
  by rewrite <- Hlinks, <- list_fmap_compose.
Qed.

(** C2, as amended. Once the candidates are scored, [get_items] returns
    a list that holds at most [quantity] links and whose ranks are 1, 2,
    ..., N. When no candidate has a NaN score the list is sorted by
    descending score (no link has a smaller score than a link behind
    it), and links that tie are in the order of their buckets in the
    aggregation. *)
Theorem get_items_sorted_and_ranked u quantity hours start end_ time_decay
    ls :
  scored_links u quantity hours start end_ time_decay = Ok ls →
  ∃ out,
    get_items u quantity hours start end_ time_decay = Ok out
    ∧ length out ≤ quantity
    ∧ rank <$> out = seq 1 (length out)
    ∧ (Forall (λ sl, PrimFloat.is_nan (sl_score sl) = false) ls →
       StronglySorted (λ a b, PrimFloat.ltb (score a) (score b) = false) out
       ∧ ∀ a b,
           [a; b] `sublist_of` out →
           tie (score a) (score b) →
           [url a; url b] `sublist_of`
             link_key <$> content_buckets start end_
               (if time_decay then quantity * 5 else quantity * 2)
               (tweet_docs u)).
Proof.
  intros Hls. eexists. split; [by apply get_items_returns|].
  set (S := sorted_reverse sl_score ls).
  set (F := found u (take quantity S)).
  set (psl := λ sl : scored, (link_key (sl_link sl), sl_score sl)).
  assert (F.*1 `sublist_of` S) as HFS.
  { etrans; [apply found_fst_sublist|apply sublist_take]. }
  split; [|split].
  - rewrite length_imap.
    etrans; [|apply (Nat.le_min_l quantity (length S))].
    rewrite <- length_take.
    rewrite <- (length_fmap fst). apply sublist_length, found_fst_sublist.
  - rewrite length_imap. apply annotated_rank.
  - intros Hnan.
    assert (S = sort_by (λ ky kx, PrimFloat.ltb kx ky) sl_score ls) as HS
      by by apply sorted_reverse_stable.
    split.
    + apply (StronglySorted_of_fmap (λ r, (url r, score r))
               (λ x y, PrimFloat.ltb x.2 y.2 = false)).
      rewrite annotated_url_score.
      apply (StronglySorted_fmap _
               (λ a b, PrimFloat.ltb (sl_score a) (sl_score b) = false));
        [done|].
      eapply StronglySorted_sublist; [exact HFS|]. rewrite HS.
      change (StronglySorted
                (in_order (λ ky kx, PrimFloat.ltb kx ky) sl_score)
                (sort_by (λ ky kx, PrimFloat.ltb kx ky) sl_score ls)).
      apply (sort_by_sorted _ _ (λ x, PrimFloat.is_nan x = false));
        [| |done].
      * intros x y. apply float_ltb_asym.
      * intros x y z Hy Hxy Hyz. by apply (float_ltb_negtrans z y x).
    + intros a b Hab Htie.
      apply (fmap_sublist (λ r, (url r, score r))) in Hab.
      rewrite annotated_url_score in Hab.
      assert (Forall (λ x : string * float, PrimFloat.is_nan x.2 = false)
                (psl <$> ls)) as Hnan'.
      { apply Forall_fmap. eapply Forall_impl; [exact Hnan|]. done. }
      assert ([(url a, score a); (url b, score b)]
                `sublist_of` sorted_reverse snd (psl <$> ls)) as Hsorted.
      { etrans; [exact Hab|]. rewrite sorted_reverse_stable by done.
        rewrite sort_by_fmap. apply fmap_sublist.
        etrans; [exact HFS|]. by rewrite HS. }
      pose proof (scored_links_keys _ _ _ _ _ _ _ Hls) as Hkeys.
      assert ((psl <$> ls).*1
                = link_key
                    <$> candidate_links u quantity start end_ time_decay)
        as Hfst.
      { by rewrite <- list_fmap_compose. }
      apply sorted_reverse_ties in Hsorted;
        [|rewrite Hfst; apply candidate_links_NoDup|done..].
      apply (fmap_sublist fst) in Hsorted. rewrite Hfst in Hsorted.
      etrans; [exact Hsorted|].
      apply fmap_sublist, candidate_links_sublist.
Qed.

(** Every link of the result is a scored candidate whose content was
    found. *)
Lemma get_items_elem u quantity hours start end_ time_decay out r :
  get_items u quantity hours start end_ time_decay = Ok out →
  r ∈ out →
  let links := candidate_links u quantity start end_ time_decay in
  ∃ l,
    l ∈ links
    ∧ link_key l = url r
    ∧ is_Some (content_docs u !! url r)
    ∧ score_link l (candidate_weights u links) time_decay hours
        = Ok (score r, score_explanation r).
Proof.
  intros (ls & Hls & ->)%get_items_Ok_inv Hr. cbv zeta.
  apply list_elem_of_lookup in Hr as [i Hr].
  apply list_lookup_imap_Some in Hr as ([sl c] & Hp & ->).
  apply list_elem_of_lookup_2, found_elem in Hp as [Hsl Hc].
  eapply elem_of_sublist in Hsl; [|apply sublist_take].
  rewrite sorted_reverse_perm in Hsl.
  apply scored_links_Ok in Hls as [Hlinks Hscores].
  exists (sl_link sl). cbn. split; [|split; [done|split; [by eexists|]]].
  - rewrite <- Hlinks. by apply list_elem_of_fmap_2.
  - rewrite Forall_forall in Hscores. by apply Hscores.
Qed.

(** C3, as amended. A link that one of the (at most 1000) tweets the
    second request returns refers to is not in the result; so when at
    most 1000 tweets created at or before [start] refer to the buckets,
    no link of the result was tweeted at or before [start]. When the
    exclusion leaves no candidate the result is empty. *)
Theorem get_items_excludes_seen u quantity hours start end_
    (time_decay : bool) :
  let keys :=
    link_key <$> content_buckets start end_
      (if time_decay then quantity * 5 else quantity * 2) (tweet_docs u) in
  (candidate_links u quantity start end_ time_decay = [] →
   get_items u quantity hours start end_ time_decay = Ok [])
  ∧ ∀ out,
      get_items u quantity hours start end_ time_decay = Ok out →
      (∀ r t, r ∈ out →
         t ∈ outside_tweets keys start (tweet_docs u) →
         content_url t ≠ url r)
      ∧ (length (filter (λ t, content_url t ∈ keys ∧ (created t ≤ start)%Z)
                   (tweet_docs u)) ≤ 1000 →
         ∀ r t, r ∈ out → t ∈ tweet_docs u → content_url t = url r →
           (start < created t)%Z).
Proof.
  cbv zeta. split.
  { intros Hnil. rewrite (get_items_returns _ _ _ _ _ _ []).
    - cbn. by rewrite take_nil.
    - unfold scored_links. by rewrite Hnil. }
  intros out Hout.
  assert (∀ r t, r ∈ out →
            t ∈ outside_tweets
                  (link_key <$> content_buckets start end_
                     (if time_decay then quantity * 5 else quantity * 2)
                     (tweet_docs u)) start (tweet_docs u) →
            content_url t ≠ url r) as Hseen.
  { intros r t Hr Ht Heq.
    destruct (get_items_elem _ _ _ _ _ _ _ _ Hout Hr)
      as (l & Hl & Hkey & _).
    unfold candidate_links in Hl.
    apply list_elem_of_filter in Hl as [Hnot _]. apply Hnot.
    rewrite elem_of_list_to_set, Hkey, <- Heq.
    by apply list_elem_of_fmap_2. }
  split; [done|].
  intros Hfew r t Hr Ht Heq.
  destruct (decide (created t ≤ start)%Z) as [Hle|]; [exfalso|lia].
  apply (Hseen r t Hr); [|done].
  unfold outside_tweets, search. rewrite take_ge by done.
  apply list_elem_of_filter. split; [|done]. split; [|done].
  destruct (get_items_elem _ _ _ _ _ _ _ _ Hout Hr) as (l & Hl & Hkey & _).
  rewrite Heq, <- Hkey. apply list_elem_of_fmap_2.
  eapply elem_of_sublist; [done|apply candidate_links_sublist].
Qed.

(** C4, as amended. A link of the result has at least 2 tweets in the
    window (tweets, not distinct tweeters). *)
Theorem get_items_min_doc_count u quantity hours start end_ time_decay out
    r :
  get_items u quantity hours start end_ time_decay = Ok out →
  r ∈ out →
  2 ≤ length (filter (λ t, content_url t = url r)
                (recent_tweets start end_ (tweet_docs u))).
Proof.
  intros Hout Hr.
  destruct (get_items_elem _ _ _ _ _ _ _ _ Hout Hr) as (l & Hl & Hkey & _).
  apply candidate_links_elem in Hl as [Hlen _]. by rewrite Hkey in Hlen.
Qed.

Lemma for_loop_score_tweeter_inv ws ts s e s' e' :
  for_loop (score_tweeter ws) (s, e) ts = Ok (s', e') →
  s' = foldl (λ total a, (total + contribution ws a)%float) s (key <$> ts).
Proof.
  revert s e. induction ts as [|t ts IH]; intros s e; cbn.
  - by intros [= -> _].
  - unfold score_tweeter at 1, convert_weight_to_score, math_log.
    destruct (PrimFloat.leb _ 0); [done|]. cbn. apply IH.
Qed.

Lemma float_div_Ok x y q : float_div x y = Ok q → q = (x / y)%float.
Proof. unfold float_div. destruct (PrimFloat.eqb y 0); by intros [=]. Qed.

(** A score [score_link] returns is the total over the tweeters of the
    link, with decay multiplied by the decay factor once per elapsed
    hour. *)
Lemma score_link_Ok_inv l ws time_decay hours s e :
  score_link l ws time_decay hours = Ok (s, e) →
  let total := total_contribution ws (key <$> tweeters l) in
  if time_decay then
    ∃ fh first rest,
      float_of_Z hours = Ok fh
      ∧ first_tweets l = first :: rest
      ∧ s = Nat.iter (Z.to_nat (minutes_since (sort0 first) `div` 60))
              (λ x, x * (1 - 1 / fh))%float total
  else s = total.
Proof.
  unfold score_link.
  destruct (for_loop _ _ _) as [[s0 e0]|] eqn:Hloop; [|done].
  apply for_loop_score_tweeter_inv in Hloop as ->. cbn.
  destruct time_decay.
  - destruct (float_of_Z hours) as [fh|]; [|done]. cbn.
    destruct (float_div 1 fh) as [inv|] eqn:Hinv; [|done]. cbn.
    apply float_div_Ok in Hinv as ->.
    destruct (first_tweets l) as [|first rest]; [done|]. cbn.
    destruct (float_of_Z _) as [fm|]; [|done]. cbn.
    destruct (float_div _ fm) as [v|]; [|done]. cbn.
    intros [= <- _]. by eexists _, _, _.
  - by intros [= <- _].
Qed.

Lemma candidate_weights_lookup u links l k :
  l ∈ links → k ∈ key <$> tweeters l →
  candidate_weights u links !! k = user_docs u !! k.
Proof.
  intros Hl Hk. unfold candidate_weights, get_user_weights.
  rewrite map_lookup_filter.
  destruct (user_docs u !! k) as [w|]; [|done]. cbn.
  rewrite option_guard_True; [done|]. cbn.
  apply list_elem_of_bind. eauto.
Qed.

Lemma filter_all {A} (P : A → Prop) `{∀ x, Decision (P x)} (l : list A) :
  (∀ x, x ∈ l → P x) → filter P l = l.
Proof.
  induction l as [|x l IH]; intros HP; [done|].
  rewrite filter_cons, decide_True by (apply HP; left).
  f_equal. apply IH. intros y Hy. apply HP. by right.
Qed.

(** With [min_doc_count] 1 every term of the documents has its
    bucket. *)
Lemma buckets_all_terms {A} (field : A → string) (docs : list A) :
  (buckets field 1 docs).*1 ≡ₚ remove_dups (field <$> docs).
Proof.
  unfold buckets. rewrite filter_all.
  - rewrite !sort_by_perm, <- list_fmap_compose.
    rewrite (list_fmap_ext _ id) by done. by rewrite list_fmap_id.
  - intros b. rewrite !sort_by_perm.
    intros (k & -> & Hk)%list_elem_of_fmap. cbn.
    rewrite elem_of_remove_dups in Hk.
    apply list_elem_of_fmap in Hk as (d & -> & Hd).
    assert (d ∈ filter (λ d', field d' = field d) docs) as Hin.
    { by apply list_elem_of_filter. }
    destruct (filter _ docs); [by apply elem_of_nil in Hin|cbn; lia].
Qed.

(** C10. For a link of the result, the tweeters that count are the
    first 1000 of the buckets of its distinct tweeters in the window
    (one per distinct tweeter, most tweets first): the score is the total
    over these at most 1000 tweeters, each at the weight the universe
    holds for it, and a further tweeter adds nothing to it. With decay
    that total is multiplied by the decay factor once per hour elapsed
    since the earliest tweet of the link in the window. *)
Theorem get_items_at_most_1000_tweeters u quantity hours start end_
    time_decay out r :
  get_items u quantity hours start end_ time_decay = Ok out →
  r ∈ out →
  let docs :=
    filter (λ t, content_url t = url r)
      (recent_tweets start end_ (tweet_docs u)) in
  let counted := take 1000 (buckets user_id 1 docs).*1 in
  (buckets user_id 1 docs).*1 ≡ₚ remove_dups (user_id <$> docs)
  ∧ length counted ≤ 1000
  ∧ ∃ ws,
      (∀ k, k ∈ counted → ws !! k = user_docs u !! k)
      ∧ if time_decay then
          ∃ fh first,
            float_of_Z hours = Ok fh
            ∧ (∀ t, t ∈ docs → (sort0 first ≤ created t)%Z)
            ∧ score r =
                Nat.iter (Z.to_nat (minutes_since (sort0 first) `div` 60))
                  (λ s, s * (1 - 1 / fh))%float
                  (total_contribution ws counted)
        else score r = total_contribution ws counted.
Proof.
  intros Hout Hr. cbv zeta.
  split; [apply buckets_all_terms|]. split; [rewrite length_take; lia|].
  destruct (get_items_elem _ _ _ _ _ _ _ _ Hout Hr)
    as (l & Hl & Hkey & _ & Hscore).
  pose proof (candidate_links_elem _ _ _ _ _ _ Hl)
    as (_ & _ & Htw & Hfirst).
  rewrite Hkey in Htw, Hfirst.
  assert (key <$> tweeters l
            = take 1000
                (buckets user_id 1
                   (filter (λ t, content_url t = url r)
                      (recent_tweets start end_ (tweet_docs u)))).*1)
    as Hkeys.
  { rewrite Htw, tweeters_of_take, fmap_take.
    by rewrite <- list_fmap_compose. }
  apply score_link_Ok_inv in Hscore. cbv zeta in Hscore.
  rewrite Hkeys in Hscore. eexists. split.
  { intros k Hk. rewrite <- Hkeys in Hk.
    by eapply candidate_weights_lookup. }
  destruct time_decay; [|done].
  destruct Hscore as (fh & first & rest & Hfh & Hl1 & Hs).
  exists fh, first. split; [done|]. split; [|done].
  rewrite Hl1 in Hfirst. symmetry in Hfirst.
  by apply top_hits_earliest in Hfirst as (_ & _ & Hmin).
Qed.

(** ** Facts: the breakout detector *)

Lemma find_Some_split {A} (f : A → bool) (l : list A) x :
  find f l = Some x ↔
  ∃ before after,
    l = before ++ x :: after
    ∧ f x = true ∧ Forall (λ y, f y = false) before.
Proof.
  induction l as [|y l IH]; cbn.
  - split; [done|]. intros ([|??] & ? & ? & _); done.
  - destruct (f y) eqn:Hy.
    + split.
      * intros [= ->]. by exists [], l.
      * intros ([|z before] & after & Heq & Hx & Hall);
          simplify_eq/=; [done|].
        apply Forall_cons in Hall as [Hz _]. congruence.
    + rewrite IH. split.
      * intros (before & after & -> & Hx & Hall).
        exists (y :: before), after. by repeat constructor.
      * intros ([|z before] & after & Heq & Hx & Hall);
          simplify_eq/=; [congruence|].
        apply Forall_cons in Hall as [_ Hall]. eauto.
Qed.


Lemma breaks_out_spec u cutoff l :
  breaks_out u cutoff l = true ↔
  PrimFloat.leb cutoff (score l) = true ∧ url l ∉ top_content u.
Proof.
  unfold breaks_out.
  rewrite andb_true_iff, negb_true_iff, bool_decide_eq_false. done.
Qed.


(** ** Facts: the score of a candidate *)

(** The first of the first tweets of a candidate is the earliest tweet
    of the link in the window. *)
Lemma candidate_first_tweet_earliest u quantity start end_ time_decay l
    first rest t :
  l ∈ candidate_links u quantity start end_ time_decay →
  first_tweets l = first :: rest →
  t ∈ recent_tweets start end_ (tweet_docs u) →
  content_url t = link_key l →
  (sort0 first ≤ created t)%Z.
Proof.
  intros (_ & _ & _ & Hfirst)%candidate_links_elem Hl Ht Hurl.
  rewrite Hl in Hfirst. symmetry in Hfirst.
  apply top_hits_earliest in Hfirst as (_ & _ & Hmin).
  apply Hmin. by apply list_elem_of_filter.
Qed.

(** C1. For a link with at least one tweeter, all of them accepted by
    [math.log]: without decay [score_link] returns the sum, from [0.0]
    and in bucket order, of [ln(weight*10 + 1)] over the tweeters, the
    weight being [0.0] for a tweeter the weight map does not hold, with
    one explanation line per tweeter. With decay (the window not zero, a
    first tweet there, the elapsed minutes not -1) it returns that total
    multiplied by [1 - 1/hours], once per elapsed hour, the elapsed
    hours being the floor of the elapsed minutes over 60, followed by
    the decay line. For a candidate of [get_items] the minutes are
    counted from the earliest tweet of the link in the window. *)
Theorem score_link_sum_and_decay l ws hours :
  tweeters l ≠ [] →
  Forall (log_defined ws) (tweeters l) →
  let total := total_contribution ws (key <$> tweeters l) in
  (∃ e,
     score_link l ws false hours = Ok (total, e)
     ∧ omap line_tweeter e = key <$> tweeters l
     ∧ length e = length (tweeters l))
  ∧ (∀ fh first rest fm,
       float_of_Z hours = Ok fh →
       PrimFloat.eqb fh 0 = false →
       first_tweets l = first :: rest →
       float_of_Z (minutes_since (sort0 first) + 1) = Ok fm →
       PrimFloat.eqb fm 0 = false →
       let hours_since := (minutes_since (sort0 first) `div` 60)%Z in
       ∃ e d,
         score_link l ws true hours =
           Ok (Nat.iter (Z.to_nat hours_since)
                 (λ s, s * (1 - 1 / fh))%float total,
               e ++ [d])
         ∧ omap line_tweeter e = key <$> tweeters l
         ∧ length e = length (tweeters l)
         ∧ line_tweeter d = None)
  ∧ (∀ u quantity start end_ time_decay first rest t,
       l ∈ candidate_links u quantity start end_ time_decay →
       first_tweets l = first :: rest →
       t ∈ recent_tweets start end_ (tweet_docs u) →
       content_url t = link_key l →
       (sort0 first ≤ created t)%Z).
Proof.
  intros _ Hdef. cbv zeta. split; [|split].
  - by apply score_link_no_decay.
  - intros fh first rest fm Hfh Hnz Hfirst Hfm Hfmnz.
    destruct (score_link_decay l ws hours fh first rest fm)
      as (e & ratio & Hs & Hkeys & Hlen); [done..|].
    by eexists e, _.
  - intros u quantity start end_ time_decay first rest t.
    apply candidate_first_tweet_earliest.
Qed.

(** ** Facts: the search merge *)

Lemma pop_first_length x res : length (pop_first x res) ≤ length res.
Proof.
  induction res as [|y res IH]; cbn; [done|].
  destruct (decide (y = x)); cbn; lia.
Qed.

Lemma merge_step_length index result rest :
  length (merge_step index result rest).2 ≤ length rest.
Proof.
  destruct result as [u c|t]; cbn.
  - generalize (matching_tweets u rest). intros ts. revert rest.
    induction ts as [|t ts IH]; intros rest; cbn; [done|].
    etrans; [apply IH|]. apply pop_first_length.
  - destruct (matching_content (content_url t) rest) as [|[u c] ?]; cbn;
      [done|]. apply pop_first_length.
Qed.

(** The loop of [search_items] is through when its fuel is: the fuel
    [search_items] gives it is enough. *)
Lemma merge_loop_fuel fuel fuel' index res :
  length res ≤ fuel → length res ≤ fuel' →
  merge_loop fuel index res = merge_loop fuel' index res.
Proof.
  revert fuel' index res.
  induction fuel as [|fuel IH]; intros fuel' index res Hf Hf'.
  - destruct res; [by destruct fuel'|cbn in Hf; lia].
  - destruct res as [|result rest]; [by destruct fuel'|].
    destruct fuel' as [|fuel']; [cbn in Hf'; lia|]. cbn.
    pose proof (merge_step_length index result rest) as Hlen.
    destruct (merge_step index result rest) as [it rest']. cbn in *.
    f_equal. apply IH; lia.
Qed.

(** The time "first tweeted" of a record is taken from the first of the
    tweets it carries, in the order the loop nested them. *)
Lemma merge_loop_first_tweeted fuel index res it :
  it ∈ merge_loop fuel index res →
  item_first_tweeted it = first_tweeted_of (item_tweets it).
Proof.
  revert index res. induction fuel as [|fuel IH]; intros index res; cbn.
  { by intros ?%elem_of_nil. }
  destruct res as [|result rest]; [by intros ?%elem_of_nil|].
  destruct (merge_step index result rest) as [it' rest'] eqn:Hstep.
  rewrite elem_of_cons. intros [->|Hit]; [|by eapply IH].
  unfold merge_step in Hstep. destruct result as [u c|t].
  - by injection Hstep as <- _.
  - destruct (matching_content _ _) as [|[u c] ?];
      by injection Hstep as <- _.
Qed.

(** ** Facts: the queue of raw tweets *)

Lemma sublist_length_lt {A} (l1 l2 : list A) x :
  l1 `sublist_of` l2 → x ∈ l2 → x ∉ l1 → length l1 < length l2.
Proof.
  induction 1 as [|y l1 l2 Hsub IH|y l1 l2 Hsub IH]; cbn.
  - by intros ?%elem_of_nil.
  - rewrite elem_of_cons, not_elem_of_cons.
    intros [->|Hx] [Hne Hnot]; [done|]. apply IH in Hx; [lia|done].
  - intros _ _. apply sublist_length in Hsub. lia.
Qed.

Lemma visible_ids not_ids docs :
  _id <$> visible not_ids docs
    = filter (λ k, k ∉ default [] not_ids) (_id <$> docs).
Proof.
  destruct not_ids as [ids|]; cbn.
  - induction docs as [|d docs IH]; [done|].
    rewrite fmap_cons, !filter_cons.
    destruct (decide (_id d ∉ ids)); by rewrite ?fmap_cons, IH.
  - rewrite filter_all; [done|]. intros k _. apply not_elem_of_nil.
Qed.

Lemma interfere_ids docs i :
  _id <$> interfere docs i `sublist_of` _id <$> docs.
Proof.
  destruct i as [id|id]; cbn.
  - apply fmap_sublist, sublist_filter.
  - rewrite <- list_fmap_compose.
    erewrite list_fmap_ext; [done|].
    intros n d _. cbn. by destruct (decide (_id d = id)).
Qed.

Lemma interference_ids docs acts :
  _id <$> foldl interfere docs acts `sublist_of` _id <$> docs.
Proof.
  revert docs. induction acts as [|i acts IH]; intros docs; cbn; [done|].
  etrans; [apply IH|apply interfere_ids].
Qed.

Lemma visible_interference not_ids docs acts :
  _id <$> visible not_ids (foldl interfere docs acts)
    `sublist_of` _id <$> visible not_ids docs.
Proof.
  rewrite !visible_ids. apply filter_sublist_mono, interference_ids.
Qed.

Lemma delete_raw_NotFound id version docs :
  delete_raw id version docs = NotFoundError → id ∉ _id <$> docs.
Proof.
  unfold delete_raw.
  destruct (filter _ docs) as [|d ds] eqn:Hf.
  - intros _ (d & Hid & Hd)%list_elem_of_fmap.
    by apply (filter_nil_not_elem_of (λ d, _id d = id) docs d Hf).
  - by destruct (decide _).
Qed.

Lemma delete_raw_Deleted id version docs docs' :
  delete_raw id version docs = Deleted docs' →
  docs' = filter (λ d, _id d ≠ id) docs.
Proof.
  unfold delete_raw. destruct (filter _ docs) as [|d ds]; [done|].
  destruct (decide _); [|done]. by intros [= <-].
Qed.

Lemma filter_sublist_impl {A} (P Q : A → Prop) `{∀ x, Decision (P x)}
    `{∀ x, Decision (Q x)} (l : list A) :
  (∀ x, P x → Q x) → filter P l `sublist_of` filter Q l.
Proof.
  intros HPQ. induction l as [|x l IH]; [done|].
  rewrite !filter_cons.
  destruct (decide (P x)) as [HP|HP], (decide (Q x)) as [HQ|HQ];
    try done; try (by constructor). by destruct HQ; auto.
Qed.

Lemma visible_sublist not_ids docs : visible not_ids docs `sublist_of` docs.
Proof. destruct not_ids; [apply sublist_filter|done]. Qed.

(** A call that sees fewer raw tweets than it has fuel returns, after no
    more further calls than it sees raw tweets. *)
Lemma next_unprocessed_tweet_returns fuel env n docs not_ids :
  length (visible not_ids docs) < fuel →
  ∃ r,
    next_unprocessed_tweet fuel env n docs not_ids = Ok r
    ∧ retries r ≤ n + length (visible not_ids docs)
    ∧ (∀ t, returned r = Some t → _id t ∈ _id <$> docs)
    ∧ _id <$> remaining r `sublist_of` _id <$> docs.
Proof.
  revert n docs not_ids.
  induction fuel as [|fuel IH]; intros n docs not_ids Hfuel; [lia|].
  cbn [next_unprocessed_tweet].
  set (docs1 := foldl interfere docs (env (2 * n))).
  pose proof (visible_interference not_ids docs (env (2 * n))) as Hv1.
  fold docs1 in Hv1.
  pose proof (interference_ids docs (env (2 * n))) as Hd1. fold docs1 in Hd1.
  pose proof (sublist_length _ _ Hv1) as Hl1. rewrite !length_fmap in Hl1.
  destruct (search_raw not_ids docs1) as [result|] eqn:Hsearch.
  2:{ eexists. split; [done|]. cbn. split; [lia|]. by split. }
  unfold search_raw in Hsearch. apply head_Some_elem_of in Hsearch.
  assert (_id result ∈ _id <$> visible not_ids docs1) as Hres.
  { by apply list_elem_of_fmap_2. }
  set (docs2 := foldl interfere docs1 (env (2 * n + 1))).
  pose proof (visible_interference not_ids docs1 (env (2 * n + 1))) as Hv2.
  fold docs2 in Hv2.
  pose proof (interference_ids docs1 (env (2 * n + 1))) as Hd2.
  fold docs2 in Hd2.
  destruct (delete_raw (_id result) (_version result) docs2)
    as [docs'| |] eqn:Hdelete.
  - apply delete_raw_Deleted in Hdelete as ->.
    eexists. split; [done|]. cbn. split; [lia|]. split.
    + intros t [= <-]. eapply elem_of_sublist; [|exact Hd1].
      apply list_elem_of_fmap_2.
      eapply elem_of_sublist; [done|apply visible_sublist].
    + etrans; [apply fmap_sublist, sublist_filter|]. by etrans.
  - apply delete_raw_NotFound in Hdelete.
    assert (length (visible not_ids docs2) < length (visible not_ids docs1))
      as Hlt.
    { rewrite <- !(length_fmap _id).
      eapply sublist_length_lt; [exact Hv2|exact Hres|].
      intros Hin. apply Hdelete.
      eapply elem_of_sublist; [exact Hin|].
      apply fmap_sublist, visible_sublist. }
    destruct (IH (S n) docs2 not_ids) as (r & -> & Hr & Hret & Hrem);
      [lia|].
    exists r. split; [done|]. split; [lia|]. split.
    + intros t Ht. eapply elem_of_sublist; [by apply Hret|by etrans].
    + etrans; [exact Hrem|by etrans].
  - set (not_ids' := Some match not_ids with
                          | Some ids => ids ++ [_id result]
                          | None => [_id result]
                          end).
    assert (_id <$> visible not_ids' docs2
              `sublist_of` _id <$> visible not_ids docs2) as Hv3.
    { rewrite !visible_ids. apply filter_sublist_impl.
      intros k Hk. destruct not_ids as [ids|]; cbn in *;
        [|apply not_elem_of_nil].
      intros Hin. apply Hk, elem_of_app. by left. }
    assert (length (visible not_ids' docs2)
              < length (visible not_ids docs1)) as Hlt.
    { rewrite <- !(length_fmap _id).
      eapply sublist_length_lt; [by etrans|exact Hres|].
      rewrite visible_ids, list_elem_of_filter. intros [Hnot _].
      apply Hnot. destruct not_ids; cbn; [apply elem_of_app; right|]; left. }
    destruct (IH (S n) docs2 not_ids') as (r & -> & Hr & Hret & Hrem);
      [lia|].
    exists r. split; [done|]. split; [lia|]. split.
    + intros t Ht. eapply elem_of_sublist; [by apply Hret|by etrans].
    + etrans; [exact Hrem|by etrans].
Qed.

Lemma next_unprocessed_tweet_more_fuel fuel fuel' env n docs not_ids r :
  fuel ≤ fuel' →
  next_unprocessed_tweet fuel env n docs not_ids = Ok r →
  next_unprocessed_tweet fuel' env n docs not_ids = Ok r.
Proof.
  revert fuel' n docs not_ids.
  induction fuel as [|fuel IH]; intros fuel' n docs not_ids Hle; [done|].
  destruct fuel' as [|fuel']; [lia|]. cbn [next_unprocessed_tweet].
  destruct (search_raw _ _) as [result|]; [|done].
  destruct (delete_raw _ _ _); [done|apply IH; lia..].
Qed.

(** The frames a call needs: one more than the further calls it makes.
    With them it returns, with fewer it raises [RuntimeError]. *)
Lemma next_unprocessed_tweet_frames fuel env n docs not_ids r :
  next_unprocessed_tweet fuel env n docs not_ids = Ok r →
  n ≤ retries r
  ∧ ∀ frames,
      (retries r - n < frames →
       next_unprocessed_tweet frames env n docs not_ids = Ok r)
      ∧ (frames ≤ retries r - n →
         next_unprocessed_tweet frames env n docs not_ids
           = Raise RuntimeError).
Proof.
  revert n docs not_ids.
  induction fuel as [|fuel IH]; intros n docs not_ids; [done|].
  cbn [next_unprocessed_tweet].
  destruct (search_raw _ _) as [result|] eqn:Hsearch.
  2:{ intros [= <-]. cbn [retries]. split; [done|].
      intros [|frames]; (split; [intros ?|intros ?]); try lia; try done.
      cbn [next_unprocessed_tweet]. by rewrite Hsearch. }
  destruct (delete_raw _ _ _) as [docs'| |] eqn:Hdelete.
  - intros [= <-]. cbn [retries]. split; [done|].
    intros [|frames]; (split; [intros ?|intros ?]); try lia; try done.
    cbn [next_unprocessed_tweet]. by rewrite Hsearch, Hdelete.
  - intros [Hn Hframes]%IH. split; [lia|].
    intros [|frames]; (split; [intros ?|intros ?]); try lia; try done;
      cbn [next_unprocessed_tweet]; rewrite Hsearch, Hdelete;
      apply Hframes; lia.
  - intros [Hn Hframes]%IH. split; [lia|].
    intros [|frames]; (split; [intros ?|intros ?]); try lia; try done;
      cbn [next_unprocessed_tweet]; rewrite Hsearch, Hdelete;
      apply Hframes; lia.
Qed.

(** C9, as amended. Whatever the other processes delete or index again
    among the raw tweets during the call, the recursion of
    [next_unprocessed_tweet] ends after at most as many further calls as
    there are raw tweets: a call that ends in a version conflict excludes
    the tweet from every later search, and one that ends in "not found"
    has lost it. When the stack has room for these calls the function
    returns a raw tweet of the index or [None], and more room changes
    nothing; when it has not, the function raises [RuntimeError]. *)
Theorem next_unprocessed_tweet_terminates env docs :
  ∃ r,
    retries r ≤ length docs
    ∧ (∀ t, returned r = Some t → _id t ∈ _id <$> docs)
    ∧ ∀ frames,
        (retries r < frames →
         next_unprocessed_tweet frames env 0 docs None = Ok r)
        ∧ (frames ≤ retries r →
           next_unprocessed_tweet frames env 0 docs None
             = Raise RuntimeError).
Proof.
  destruct (next_unprocessed_tweet_returns (S (length docs)) env 0 docs None)
    as (r & Hr & Hretries & Hret & _); [cbn; lia|].
  exists r. split; [done|]. split; [done|].
  apply next_unprocessed_tweet_frames in Hr as [_ Hframes].
  intros frames. specialize (Hframes frames).
  by rewrite Nat.sub_0_r in Hframes.
Qed.

(** ** Facts: how scoring fails *)

Lemma log_defined_cases ws t : log_defined ws t ∨ ¬ log_defined ws t.
Proof. unfold log_defined. destruct (PrimFloat.leb _ 0); auto. Qed.

Lemma score_tweeter_undefined ws acc t :
  ¬ log_defined ws t → score_tweeter ws acc t = Raise ValueError.
Proof.
  destruct acc as [s e].
  unfold score_tweeter, convert_weight_to_score, math_log, log_defined.
  by destruct (PrimFloat.leb _ 0).
Qed.

Lemma for_loop_score_tweeter_undefined ws ts acc :
  Exists (λ t, ¬ log_defined ws t) ts →
  for_loop (score_tweeter ws) acc ts = Raise ValueError.
Proof.
  intros Hts. revert acc.
  induction Hts as [t ts Ht|t ts Hts IH]; intros [s e]; cbn [for_loop].
  - by rewrite score_tweeter_undefined.
  - destruct (log_defined_cases ws t) as [Ht|Ht].
    + rewrite score_tweeter_defined by done. apply IH.
    + by rewrite score_tweeter_undefined.
Qed.

Lemma for_loop_score_tweeter_Raise ws ts acc err :
  for_loop (score_tweeter ws) acc ts = Raise err →
  err = ValueError ∧ Exists (λ t, ¬ log_defined ws t) ts.
Proof.
  revert acc. induction ts as [|t ts IH]; intros [s e]; cbn [for_loop]; [done|].
  destruct (log_defined_cases ws t) as [Ht|Ht].
  - rewrite score_tweeter_defined by done.
    intros [-> Hts]%IH. split; [done|by right].
  - rewrite score_tweeter_undefined by done.
    intros [= <-]. split; [done|by left].
Qed.

Lemma Raise_inj {A} (e1 e2 : exn) : @Raise A e1 = Raise e2 → e1 = e2.
Proof. by intros [= ->]. Qed.

Lemma float_of_Z_Raise z err : float_of_Z z = Raise err → err = OverflowError.
Proof. unfold float_of_Z. destruct (PrimFloat.is_infinity _); congruence. Qed.

Lemma float_div_Raise x y err :
  float_div x y = Raise err → err = ZeroDivisionError.
Proof. unfold float_div. destruct (PrimFloat.eqb y 0); congruence. Qed.

(** The failures of [score_link]: the logarithm of a tweeter, and with
    decay the conversions, the divisions and the first tweet. *)
Lemma score_link_Raise l ws time_decay hours err :
  score_link l ws time_decay hours = Raise err →
  (err = ValueError ∧ Exists (λ t, ¬ log_defined ws t) (tweeters l))
  ∨ (time_decay = true
     ∧ (err = OverflowError ∨ err = ZeroDivisionError
        ∨ (err = IndexError ∧ first_tweets l = []))).
Proof.
  unfold score_link.
  destruct (for_loop _ _ (tweeters l)) as [[s e]|err'] eqn:Hloop;
    cbn.
  2:{ intros ->%Raise_inj.
      left. by eapply for_loop_score_tweeter_Raise. }
  destruct time_decay; [|done].
  intros Herr. right. split; [done|]. revert Herr.
  destruct (float_of_Z hours) as [fh|err1] eqn:Hfh; cbn.
  2:{ intros ->%Raise_inj. left. by eapply float_of_Z_Raise. }
  destruct (float_div 1 fh) as [inv|err1] eqn:Hinv; cbn.
  2:{ intros ->%Raise_inj. right; left. by eapply float_div_Raise. }
  destruct (first_tweets l) as [|first rest]; cbn.
  { intros <-%Raise_inj.
    right; by right. }
  destruct (float_of_Z (minutes_since (sort0 first) + 1)) as [fm|err1]
    eqn:Hfm; cbn.
  2:{ intros ->%Raise_inj. left. by eapply float_of_Z_Raise. }
  destruct (float_div s fm) as [v|err1] eqn:Hv; cbn.
  2:{ intros ->%Raise_inj. right; left. by eapply float_div_Raise. }
  done.
Qed.

Lemma for_each_Raise {A B} (f : A → result B) (l : list A) err :
  for_each f l = Raise err → ∃ x, x ∈ l ∧ f x = Raise err.
Proof.
  induction l as [|x l IH]; cbn [for_each]; [done|].
  destruct (f x) as [y|err'] eqn:Hx; cbn.
  - destruct (for_each f l) as [ys|err'']; cbn; [done|].
    intros [= <-]. destruct IH as (x' & Hin & Hx'); [done|].
    exists x'. split; [by right|done].
  - intros [= <-]. exists x. split; [by left|done].
Qed.

Lemma get_items_Raise u quantity hours start end_ time_decay err :
  get_items u quantity hours start end_ time_decay = Raise err →
  let links := candidate_links u quantity start end_ time_decay in
  ∃ l, l ∈ links
       ∧ score_link l (candidate_weights u links) time_decay hours = Raise err.
Proof.
  intros Herr. cbv zeta.
  destruct (scored_links u quantity hours start end_ time_decay)
    as [ls|err'] eqn:Hls.
  { apply get_items_returns in Hls. congruence. }
  rewrite get_items_stages, Hls in Herr. injection Herr as ->.
  apply for_each_Raise in Hls as (l & Hl & Hscore).
  exists l. split; [done|].
  destruct (score_link l _ time_decay hours) as [[s e]|err'']; cbn in Hscore;
    [done|]. by apply Raise_inj in Hscore as ->.
Qed.

(** X13. [score_link] raises [ValueError] as soon as the weight [w] of one
    tweeter has [w * 10 + 1 <= 0], with or without decay, and without
    decay this is the only way it fails. *)
Theorem score_link_ValueError l ws hours :
  (∀ time_decay,
     Exists (λ t, ¬ log_defined ws t) (tweeters l) →
     score_link l ws time_decay hours = Raise ValueError)
  ∧ (∀ err,
       score_link l ws false hours = Raise err →
       err = ValueError ∧ Exists (λ t, ¬ log_defined ws t) (tweeters l)).
Proof.
  split.
  - intros time_decay Hts. unfold score_link.
    by rewrite for_loop_score_tweeter_undefined.
  - intros err [?|[? _]]%score_link_Raise; done.
Qed.

(** X14. [get_items] fails only where [score_link] fails on one of the
    links it scores, with that failure: never with [IndexError], and
    without decay only with [ValueError]. *)
Theorem get_items_failure u quantity hours start end_ time_decay err :
  get_items u quantity hours start end_ time_decay = Raise err →
  let links := candidate_links u quantity start end_ time_decay in
  err ≠ IndexError
  ∧ (time_decay = false → err = ValueError)
  ∧ ∃ l, l ∈ links
         ∧ score_link l (candidate_weights u links) time_decay hours
             = Raise err.
Proof.
  intros (l & Hl & Hscore)%get_items_Raise. cbv zeta.
  split; [|split; [|by exists l]].
  - apply score_link_Raise in Hscore
      as [[-> _]|[_ [->|[->|[_ Hnone]]]]]; try done.
    by apply candidate_links_first_tweets in Hl.
  - intros ->. by apply score_link_Raise in Hscore as [[-> _]|[? _]].
Qed.

(** X15. [get_top_link] hides no failure of [get_items]: whatever
    [get_items] raises, [get_top_link] raises, its handler for
    [IndexError] never being entered. *)
Theorem get_top_link_reraises u hours quantity start end_ err :
  get_items u quantity hours start end_ true = Raise err →
  get_top_link u hours quantity start end_ = Raise err.
Proof.
  intros Herr. unfold get_top_link. rewrite Herr.
  apply get_items_Raise in Herr as (l & Hl & Hscore).
  apply score_link_Raise in Hscore
    as [[-> _]|[_ [->|[->|[_ Hnone]]]]]; try done.
  by apply candidate_links_first_tweets in Hl.
Qed.

(** ** Facts: the tweets of a returned link *)

Lemma StronglySorted_app_order {A} (R : A → A → Prop) (l1 l2 : list A) x y :
  StronglySorted R (l1 ++ l2) → x ∈ l1 → y ∈ l2 → R x y.
Proof.
  induction l1 as [|z l1 IH]; cbn; [by intros _ ?%elem_of_nil|].
  intros [Hsorted Hz]%StronglySorted_inv.
  rewrite elem_of_cons. intros [->|Hx] Hy; [|by apply IH].
  rewrite Forall_forall in Hz. apply Hz, elem_of_app. by right.
Qed.

Lemma StronglySorted_mono {A} (R Q : A → A → Prop) (l : list A) :
  (∀ a b, R a b → Q a b) → StronglySorted R l → StronglySorted Q l.
Proof.
  intros HRQ. induction 1 as [|x l Hl IH Hx]; constructor; [done|].
  eapply Forall_impl; [exact Hx|]. intros y. apply HRQ.
Qed.

(** The first [size] documents by ascending [created]: in that order,
    and none of the others is earlier than any of them. *)
Lemma top_hits_source size docs :
  let first := _source <$> top_hits size docs in
  first = take size (sort_by Z.ltb created docs)
  ∧ length first = size `min` length docs
  ∧ (∀ t, t ∈ first → t ∈ docs)
  ∧ StronglySorted (λ a b, created a ≤ created b)%Z first
  ∧ (∀ t t', t ∈ first → t' ∈ docs → t' ∉ first →
       (created t ≤ created t')%Z)
  ∧ head (top_hits size docs) = (λ t, Hit (created t) t) <$> head first.
Proof.
  cbv zeta. unfold top_hits.
  set (sorted := sort_by Z.ltb created docs).
  assert (_source <$> ((λ t, Hit (created t) t) <$> take size sorted)
            = take size sorted) as ->.
  { rewrite <- list_fmap_compose. apply list_fmap_id. }
  assert (StronglySorted (λ a b, created a ≤ created b)%Z sorted) as Hsorted.
  { eapply StronglySorted_mono;
      [|apply (sort_by_sorted Z.ltb created (λ _, True)); [lia..|]].
    - unfold in_order. intros a b. lia.
    - by apply Forall_true. }
  split; [done|]. split; [|split; [|split; [|split]]].
  - rewrite length_take. unfold sorted.
    by rewrite (Permutation_length (sort_by_perm _ _ _)).
  - intros t Ht. eapply elem_of_sublist in Ht; [|apply sublist_take].
    by rewrite <- (sort_by_perm Z.ltb created docs).
  - eapply StronglySorted_sublist; [apply sublist_take|done].
  - intros t t' Ht Ht' Hnot.
    rewrite <- (sort_by_perm Z.ltb created docs) in Ht'. fold sorted in Ht'.
    rewrite <- (take_drop size sorted) in Ht', Hsorted.
    apply elem_of_app in Ht' as [?|Ht']; [done|].
    exact (StronglySorted_app_order _ _ _ t t' Hsorted Ht Ht').
  - by destruct (take size sorted).
Qed.

(** X16. Every link [get_items] returns carries two or three tweets:
    the earliest tweets of the window that link to its url, earliest
    first, and [first_tweeted] is the time of the first of them. *)
Theorem get_items_tweets u quantity hours start end_ time_decay out r :
  get_items u quantity hours start end_ time_decay = Ok out →
  r ∈ out →
  let ds :=
    filter (λ t, content_url t = url r)
      (recent_tweets start end_ (tweet_docs u)) in
  2 ≤ length (tweets r) ≤ 3
  ∧ length (tweets r) = 3 `min` length ds
  ∧ (∀ t, t ∈ tweets r → t ∈ ds)
  ∧ StronglySorted (λ a b, created a ≤ created b)%Z (tweets r)
  ∧ (∀ t t', t ∈ tweets r → t' ∈ ds → t' ∉ tweets r →
       (created t ≤ created t')%Z)
  ∧ ∃ t0, head (tweets r) = Some t0 ∧ first_tweeted r = SinceNow (created t0).
Proof.
  intros (ls & Hls & ->)%get_items_Ok_inv Hr. cbv zeta.
  apply list_elem_of_lookup in Hr as [i Hr].
  apply list_lookup_imap_Some in Hr as ([sl c] & Hp & ->).
  apply list_elem_of_lookup_2, found_elem in Hp as [Hsl Hc].
  eapply elem_of_sublist in Hsl; [|apply sublist_take].
  rewrite sorted_reverse_perm in Hsl.
  apply scored_links_Ok in Hls as [Hlinks _].
  assert (sl_link sl ∈ candidate_links u quantity start end_ time_decay)
    as Hl by (rewrite <- Hlinks; by apply list_elem_of_fmap_2).
  apply candidate_links_elem in Hl as (Hcount & _ & _ & Hfirst).
  cbn [annotated url tweets first_tweeted fst snd]. rewrite Hfirst.
  set (ds := filter _ (recent_tweets start end_ (tweet_docs u))) in *.
  destruct (top_hits_source 3 ds) as (_ & Hlen & Hin & Hsorted & Hearly & Hhead).
  split; [rewrite Hlen; lia|]. do 4 (split; [done|]).
  rewrite Hhead.
  destruct (_source <$> top_hits 3 ds) as [|t0 ts] eqn:Hts.
  - cbn [length] in Hlen. lia.
  - by exists t0.
Qed.

(** ** Facts: writes and the next read *)

Lemma get_items_ranks u quantity hours start end_ time_decay out i r :
  get_items u quantity hours start end_ time_decay = Ok out →
  out !! i = Some r → rank r = S i.
Proof.
  intros (ls & _ & ->)%get_items_Ok_inv Hr.
  apply (f_equal (fmap rank)) in Hr. rewrite <- list_lookup_fmap in Hr.
  rewrite annotated_rank in Hr. apply lookup_seq in Hr as [Hr _].
  exact Hr.
Qed.

(** X17. Once the link [get_top_link] returned is added to the top links,
    the next call does not return it again: it returns no link, or a
    link of another url that is not a top link yet and that [get_items]
    ranks behind the first one. *)
Theorem get_top_link_after_promotion u hours quantity start end_ l :
  get_top_link u hours quantity start end_ = Ok (Some l) →
  ∃ next,
    get_top_link (add_to_top_links u l) hours quantity start end_ = Ok next
    ∧ ∀ l', next = Some l' →
        url l' ≠ url l ∧ (url l' ∉ top_content u) ∧ rank l < rank l'.
Proof.
  unfold get_top_link.
  change (get_items (add_to_top_links u l)) with (get_items u).
  change (score_stats (add_to_top_links u l)) with (score_stats u).
  destruct (get_items u quantity hours start end_ true) as [out|[]] eqn:Hout;
    try done.
  destruct (score_stats u hours) as [[avg std]|]; [|done].
  set (cutoff := (avg + 2 * std)%float).
  intros [= Hfind]. eexists. split; [done|].
  intros l' Hfind'.
  apply find_Some_split in Hfind as (before & after & -> & Hl & Hbefore).
  apply find_Some_split in Hfind' as (before' & after' & Hsplit & Hl' & _).
  apply breaks_out_spec in Hl' as [Hscore Hnew].
  change (top_content (add_to_top_links u l)) with ({[url l]} ∪ top_content u)
    in Hnew.
  apply not_elem_of_union in Hnew as [Hne%not_elem_of_singleton Hnew].
  split; [done|]. split; [done|].
  assert ((before ++ l :: after) !! length before = Some l) as Hat
    by by rewrite list_lookup_middle.
  assert ((before ++ l :: after) !! length before' = Some l') as Hat'
    by by rewrite Hsplit, list_lookup_middle.
  rewrite (get_items_ranks _ _ _ _ _ _ _ _ _ Hout Hat).
  rewrite (get_items_ranks _ _ _ _ _ _ _ _ _ Hout Hat').
  destruct (Nat.lt_trichotomy (length before') (length before))
    as [Hlt|[Heq|Hgt]]; [| |lia].
  - rewrite lookup_app_l in Hat' by done.
    apply list_elem_of_lookup_2 in Hat'.
    rewrite Forall_forall in Hbefore. specialize (Hbefore _ Hat').
    assert (breaks_out u cutoff l' = true) as Hold
      by by apply breaks_out_spec.
    congruence.
  - rewrite Heq in Hat'. congruence.
Qed.

(** X18. After [delete_tweets_by_url], [get_items] returns no link of
    that url. *)
Theorem get_items_after_delete_tweets u deleted quantity hours start end_
    time_decay out :
  get_items (delete_tweets_by_url u deleted) quantity hours start end_
    time_decay = Ok out →
  deleted ∉ url <$> out.
Proof.
  intros Hout (r & -> & Hr)%list_elem_of_fmap.
  destruct (get_items_elem _ _ _ _ _ _ _ _ Hout Hr) as (l & Hl & Hkey & _).
  apply candidate_links_elem in Hl as [Hcount _].
  rewrite Hkey, filter_key_absent in Hcount; [cbn in Hcount; lia|].
  intros (t & Hurl & Ht)%list_elem_of_fmap.
  unfold recent_tweets in Ht. apply list_elem_of_filter in Ht as [_ Ht].
  change (tweet_docs (delete_tweets_by_url u (url r)))
    with (filter (λ t, content_url t ≠ url r) (tweet_docs u)) in Ht.
  by apply list_elem_of_filter in Ht as [Hne _].
Qed.

Lemma found_cons u sl sls :
  found u (sl :: sls) =
    match content_docs u !! link_key (sl_link sl) with
    | Some c => (sl, c) :: found u sls
    | None => found u sls
    end.
Proof.
  unfold found. cbn.
  by destruct (content_docs u !! link_key (sl_link sl)).
Qed.

Lemma found_delete u u' deleted (sls : list scored) :
  content_docs u' = delete deleted (content_docs u) →
  (λ sl, (link_key (sl_link sl), sl_score sl)) <$> (found u' sls).*1
    = filter (λ p, p.1 ≠ deleted)
        ((λ sl, (link_key (sl_link sl), sl_score sl)) <$> (found u sls).*1).
Proof.
  intros Hdocs.
  induction sls as [|sl sls IH]; [done|]. rewrite !found_cons, Hdocs.
  destruct (decide (link_key (sl_link sl) = deleted)) as [Heq|Hne].
  - rewrite <- Heq at 1. rewrite lookup_delete_eq, IH.
    destruct (content_docs u !! link_key (sl_link sl)) as [c|]; [|done].
    rewrite !fmap_cons, filter_cons, decide_False; [done|].
    cbn [fst]. tauto.
  - rewrite lookup_delete_ne by done.
    destruct (content_docs u !! link_key (sl_link sl)) as [c|]; [|exact IH].
    rewrite !fmap_cons, filter_cons, decide_True by done. f_equal. exact IH.
Qed.

(** X19. After [delete_content_by_url], [get_items] returns the links it
    returned before without the link of that url: the others keep their
    scores and their order, and are ranked 1, 2, 3, ... anew. *)
Theorem get_items_after_delete_content u u' deleted quantity hours start end_
    time_decay out :
  delete_content_by_url u deleted = Some u' →
  get_items u quantity hours start end_ time_decay = Ok out →
  ∃ out',
    get_items u' quantity hours start end_ time_decay = Ok out'
    ∧ (λ r, (url r, score r)) <$> out'
        = filter (λ p, p.1 ≠ deleted) ((λ r, (url r, score r)) <$> out)
    ∧ rank <$> out' = seq 1 (length out').
Proof.
  unfold delete_content_by_url.
  destruct (content_docs u !! deleted) as [c|]; [|done]. intros [= <-].
  intros (ls & Hls & ->)%get_items_Ok_inv.
  eexists. split; [by apply get_items_returns, Hls|].
  split.
  - rewrite !annotated_url_score. by apply found_delete.
  - rewrite annotated_rank. by rewrite length_imap.
Qed.

(** X20. A tweet that is enqueued is not lost by the next, undisturbed
    dequeue: that call returns at once, and either returns the raw tweet
    of that id or leaves it in the index. *)
Theorem enqueue_then_dequeue fuel docs id :
  ∃ r,
    next_unprocessed_tweet (S fuel) (λ _, []) 0 (enqueue_tweet docs id) None
      = Ok r
    ∧ retries r = 0
    ∧ ∃ t, returned r = Some t
           ∧ (_id t = id ∨ id ∈ _id <$> remaining r).
Proof.
  assert (id ∈ _id <$> enqueue_tweet docs id) as Hid.
  { unfold enqueue_tweet. case_bool_decide as Hin.
    - eapply elem_of_sublist in Hin; [exact Hin|]. cbn.
      rewrite <- list_fmap_compose. erewrite list_fmap_ext; [done|].
      intros n d _. cbn. by destruct (decide (_id d = id)).
    - rewrite fmap_app, elem_of_app. right. left. }
  generalize dependent (enqueue_tweet docs id). intros queue Hid.
  cbn [next_unprocessed_tweet foldl]. unfold search_raw. cbn [visible].
  destruct queue as [|d queue]; [by apply elem_of_nil in Hid|]. cbn [head].
  unfold delete_raw. rewrite filter_cons_True by done.
  rewrite decide_True by done.
  eexists. split; [done|]. split; [done|]. exists d. split; [done|].
  cbn [remaining]. destruct (decide (_id d = id)) as [|Hne]; [by left|right].
  apply list_elem_of_fmap in Hid as (d' & -> & Hd').
  apply list_elem_of_fmap_2, list_elem_of_filter. split; [congruence|done].
Qed.

End Engine.

(** ** Facts: paging through a doc type *)

Lemma page_next {A} (chunk j : nat) (hits : list A) :
  take (chunk * j) hits ++ page (chunk * j) chunk hits
    = take (chunk * S j) hits.
Proof.
  unfold page. by rewrite Nat.mul_succ_r, take_take_drop.
Qed.

Lemma pages_stop (n : Z) (j : nat) :
  (n ≤ Z.of_nat (5000 * j))%Z ↔ Z.to_nat ((n + 4999) `div` 5000) ≤ j.
Proof.
  rewrite Nat2Z.inj_mul. change (Z.of_nat 5000) with 5000%Z.
  Z.div_mod_to_equations. lia.
Qed.

(** The loop, entered with [j] pages collected, stops after the page that
    reaches the size, and has collected whole pages. *)
Lemma get_all_docs_loop_pages {A B} fuel (field : A → B) hits size j :
  let n := default (Z.of_nat (length hits)) size in
  let last := Z.to_nat ((n + 4999) `div` 5000) in
  0 < fuel → last ≤ j + fuel →
  get_all_docs_loop fuel field hits size (5000 * j)
      (field <$> take (5000 * j) hits)
    = Some (field <$> take (5000 * (S j `max` last)) hits).
Proof.
  cbv zeta. revert j size.
  induction fuel as [|fuel IH]; intros j size Hfuel Hlast; [lia|].
  cbn [get_all_docs_loop].
  assert (match size with
          | Some n => n
          | None => Z.of_nat (length hits)
          end = default (Z.of_nat (length hits)) size) as -> by by destruct size.
  generalize dependent (default (Z.of_nat (length hits)) size). intros n Hlast.
  rewrite <- (Nat.mul_succ_r 5000 j).
  rewrite (bool_decide_ext _ _ (pages_stop n (S j))).
  remember (Z.to_nat ((n + 4999) `div` 5000)) as last eqn:Hl.
  generalize dependent 5000%nat. intros chunk IH.
  rewrite <- fmap_app, page_next.
  case_bool_decide as Hstop.
  - by rewrite Nat.max_l by lia.
  - rewrite (IH (S j) (Some n));
      cbv beta iota delta [default from_option id]; rewrite <- ?Hl; [|lia..].
    by rewrite !Nat.max_r by lia.
Qed.

(** Enough turns of the loop collect everything when no size is given. *)
Lemma get_all_docs_no_size {A B} fuel (field : A → B) (hits : list A) :
  length hits < 5000 * fuel →
  get_all_docs fuel field hits None = Some (field <$> hits).
Proof.
  intros Hfuel. unfold get_all_docs.
  pose proof (get_all_docs_loop_pages fuel field hits None 0) as Hloop.
  cbv beta iota zeta delta [default from_option id] in Hloop.
  rewrite Nat.mul_0_r, take_0, fmap_nil in Hloop. rewrite Hloop.
  - rewrite take_ge; [done|].
    pose proof (proj2 (pages_stop (Z.of_nat (length hits))
      (Z.to_nat ((Z.of_nat (length hits) + 4999) `div` 5000))) (le_n _)).
    lia.
  - destruct fuel; [rewrite Nat.mul_0_r in Hfuel|]; lia.
  - apply pages_stop, Nat2Z.inj_le. lia.
Qed.

(** X1. Without a size, [get_all_docs] pages through every matching
    document: the field of each one is returned once, in the order of the
    index, whatever their number. *)
Theorem get_all_docs_everything {A B} fuel (field : A → B) (hits : list A) :
  length hits < 5000 * fuel →
  get_all_docs fuel field hits None = Some (field <$> hits).
Proof. apply get_all_docs_no_size. Qed.

(** X2. With a size, [get_all_docs] stops only at the end of a page: it
    returns the first [5000 * max 1 (ceil (size / 5000))] matching
    documents, which can be up to 4999 more than [size], and is a whole
    page for a size of zero or less. *)
Theorem get_all_docs_whole_pages {A B} fuel (field : A → B) (hits : list A)
    (size : Z) :
  0 < fuel → (size ≤ 5000 * Z.of_nat fuel)%Z →
  get_all_docs fuel field hits (Some size)
    = Some (field <$>
        take (5000 * (1 `max` Z.to_nat ((size + 4999) `div` 5000))) hits).
Proof.
  intros Hfuel Hsize. unfold get_all_docs.
  pose proof (get_all_docs_loop_pages fuel field hits (Some size) 0) as Hloop.
  cbv beta iota zeta delta [default from_option id] in Hloop.
  rewrite Nat.mul_0_r, take_0, fmap_nil in Hloop. apply Hloop; [done|].
  apply pages_stop. rewrite Nat2Z.inj_mul. by change (Z.of_nat 5000) with 5000%Z.
Qed.

(** ** Facts: the url cache *)

Lemma rstrip_slash_cons (c : Ascii.ascii) (s : string) :
  rstrip_slash (String c s) =
    match rstrip_slash s with
    | EmptyString =>
        if bool_decide (String c EmptyString = "/") then EmptyString
        else String c EmptyString
    | r => String c r
    end.
Proof. done. Qed.

Lemma rstrip_slash_idemp (s : string) :
  rstrip_slash (rstrip_slash s) = rstrip_slash s.
Proof.
  induction s as [|c s IH]; [done|].
  rewrite rstrip_slash_cons. destruct (rstrip_slash s) as [|d r] eqn:Hs.
  - case_bool_decide as Hc; [done|].
    rewrite rstrip_slash_cons. cbn [rstrip_slash]. by rewrite bool_decide_false.
  - by rewrite rstrip_slash_cons, IH.
Qed.

(** X3. A resolved url cached under [url] is found again, with its
    trailing slashes removed, by every lookup of a url that is [url]
    once stripped; cached under a url that ends in a slash it is found by
    no lookup at all, every lookup answering as before the write. *)
Theorem cached_url_round_trip (now : Z) (cache : gmap string cached_url)
    (url resolved_url : string) :
  (∀ asked, rstrip_slash asked = url →
     get_cached_url (set_cached_url now cache url resolved_url) asked
       = Some (rstrip_slash resolved_url))
  ∧ (rstrip_slash url ≠ url →
     ∀ asked,
       get_cached_url (set_cached_url now cache url resolved_url) asked
         = get_cached_url cache asked).
Proof.
  unfold get_cached_url, set_cached_url. split.
  - intros asked ->. by rewrite lookup_insert_eq.
  - intros Hslash asked. rewrite lookup_insert_ne; [done|].
    intros ->. by rewrite rstrip_slash_idemp in Hslash.
Qed.

(** ** Facts: cleanup *)

Lemma get_all_docs_all {A B} (field : A → B) (hits : list A) :
  get_all_docs (S (length hits)) field hits None = Some (field <$> hits).
Proof.
  apply get_all_docs_no_size.
  change 5000 with (S 4999). rewrite Nat.mul_succ_l.
  generalize (4999 * S (length hits)). lia.
Qed.

Lemma filter_ext_elem {A} (P Q : A → Prop) `{!∀ x, Decision (P x)}
    `{!∀ x, Decision (Q x)} (l : list A) :
  (∀ x, x ∈ l → P x ↔ Q x) → filter P l = filter Q l.
Proof.
  induction l as [|x l IH]; intros Hext; [done|].
  rewrite !filter_cons.
  rewrite IH by (intros y Hy; apply Hext; by right).
  destruct (decide (P x)) as [HP|HP], (decide (Q x)) as [HQ|HQ];
    try done; exfalso; apply (Hext x) in HP || apply (Hext x) in HQ;
    try done; by left.
Qed.

(** What [cleanup] leaves: the tweets whose id is not the id of an old
    tweet, the content of a url that some remaining tweet links to, and
    everything else as it was. *)
Lemma cleanup_returns (cutoff : Z) (c : cluster) :
  let u := universe_index c in
  let tweets :=
    filter (λ t, tweet_id t ∉
                   tweet_id <$> filter (λ t, created t < cutoff)%Z (tweet_docs u))
      (tweet_docs u) in
  cleanup cutoff c =
    Some (Cluster
            (Universe tweets (user_docs u)
               (filter (λ p, p.1 ∈ content_url <$> tweets) (content_docs u))
               (top_content u) (score_stats u))
            (raw_tweets c) (url_cache c) (results_cache c)).
Proof.
  cbv zeta. unfold cleanup. cbv zeta.
  repeat (rewrite get_all_docs_all; cbn [mbind option_bind]).
  cbn [fmap list_fmap].
  do 2 f_equal.
  - f_equal. apply map_filter_ext. intros k x Hk. cbn [fst].
    rewrite not_elem_of_difference, !elem_of_list_to_set.
    split; [intros [Hall|?]; [|done]|by right].
    destruct Hall. apply list_elem_of_fmap. exists (k, x).
    split; [done|]. by apply elem_of_map_to_list.
  - apply map_filter_id. intros k x _. apply not_elem_of_nil.
  - apply filter_all. intros x _. apply not_elem_of_nil.
Qed.

Lemma cleanup_old_ids (cutoff : Z) (tweets : list tweet) :
  NoDup (tweet_id <$> tweets) →
  filter (λ t, tweet_id t ∉
                 tweet_id <$> filter (λ t, created t < cutoff)%Z tweets) tweets
    = filter (λ t, cutoff ≤ created t)%Z tweets.
Proof.
  intros Hids. apply filter_ext_elem. intros t Ht.
  rewrite list_elem_of_fmap. split.
  - intros Hnew. destruct (decide (cutoff ≤ created t)%Z); [done|].
    destruct Hnew. exists t. split; [done|].
    apply list_elem_of_filter. split; [lia|done].
  - intros Hnew (t' & Hid & Hold). apply list_elem_of_filter in Hold as [Hold Ht'].
    assert (t = t') as <- by by eapply (NoDup_fmap_eq tweet_id). lia.
Qed.

(** X4. On an index whose tweet ids are distinct, [cleanup] returns,
    leaves exactly the tweets created at the cutoff or later, in their
    order, and leaves exactly the content that one of the tweets it left
    links to (a delete being visible to the searches after it). *)
Theorem cleanup_deletes_old (cutoff : Z) (c : cluster) :
  NoDup (tweet_id <$> tweet_docs (universe_index c)) →
  ∃ c',
    cleanup cutoff c = Some c'
    ∧ tweet_docs (universe_index c')
        = filter (λ t, cutoff ≤ created t)%Z (tweet_docs (universe_index c))
    ∧ content_docs (universe_index c')
        = filter (λ p, p.1 ∈ content_url <$> tweet_docs (universe_index c'))
            (content_docs (universe_index c)).
Proof.
  intros Hids. eexists. split; [apply cleanup_returns|].
  cbn [universe_index tweet_docs content_docs]. split; [|done].
  by apply cleanup_old_ids.
Qed.


(** X6. A second [cleanup] with the same cutoff changes nothing: the first
    one leaves no old tweet and no content without a tweet. *)
Theorem cleanup_twice (cutoff : Z) (c c' : cluster) :
  NoDup (tweet_id <$> tweet_docs (universe_index c)) →
  cleanup cutoff c = Some c' →
  cleanup cutoff c' = Some c'.
Proof.
  intros Hids. rewrite cleanup_returns. cbv zeta. intros [= <-].
  rewrite cleanup_returns. cbv zeta.
  cbn [universe_index tweet_docs user_docs content_docs top_content
       score_stats raw_tweets url_cache results_cache].
  rewrite !cleanup_old_ids; [|done|].
  - rewrite list_filter_filter.
    assert (filter (λ t, (cutoff ≤ created t)%Z ∧ (cutoff ≤ created t)%Z)
              (tweet_docs (universe_index c))
            = filter (λ t, cutoff ≤ created t)%Z (tweet_docs (universe_index c)))
      as -> by (apply filter_ext_elem; tauto).
    rewrite map_filter_filter.
    do 3 f_equal. apply map_filter_ext. intros k x _. cbn [fst]. tauto.
  - eapply sublist_NoDup; [exact Hids|].
    apply fmap_sublist, sublist_filter.
Qed.

(** ** Facts: what the search merge keeps *)

Lemma pop_first_perm x res : x ∈ res → res ≡ₚ x :: pop_first x res.
Proof.
  induction res as [|y res IH]; [by intros ?%elem_of_nil|].
  cbn [pop_first]. destruct (decide (y = x)) as [->|Hne]; [done|].
  rewrite elem_of_cons. intros [->|Hx]; [done|].
  rewrite (IH Hx) at 1. apply Permutation_swap.
Qed.

Lemma pop_all_perm (xs res : list document) :
  xs ⊆+ res → res ≡ₚ xs ++ foldl (λ res x, pop_first x res) res xs.
Proof.
  revert res. induction xs as [|x xs IH]; intros res Hsub; [done|].
  assert (x ∈ res) as Hx.
  { eapply elem_of_submseteq; [|exact Hsub]. by left. }
  cbn [foldl]. rewrite <- app_comm_cons, <- IH; [by apply pop_first_perm|].
  apply (submseteq_app_inv_l _ _ [x]). cbn [app].
  by rewrite <- (pop_first_perm x res Hx).
Qed.

Lemma foldl_pop_tweets (ts : list tweet) (res : list document) :
  foldl (λ res t, pop_first (TweetDoc t) res) res ts
    = foldl (λ res x, pop_first x res) res (TweetDoc <$> ts).
Proof. revert res. induction ts as [|t ts IH]; intros res; cbn; [done|apply IH]. Qed.

Lemma matching_tweets_sublist u rest :
  TweetDoc <$> matching_tweets u rest `sublist_of` rest.
Proof.
  induction rest as [|[u' c|t] rest IH]; cbn; [done|by constructor|].
  destruct (decide (content_url t = u)); cbn; by constructor.
Qed.

Lemma matching_tweets_url u rest t :
  t ∈ matching_tweets u rest → content_url t = u.
Proof.
  unfold matching_tweets. rewrite list_elem_of_omap.
  intros ([u' c|t'] & _ & Ht); [done|].
  destruct (decide (content_url t' = u)); by simplify_eq.
Qed.

Lemma matching_content_elem k rest u c :
  (u, c) ∈ matching_content k rest → u = k ∧ ContentDoc u c ∈ rest.
Proof.
  unfold matching_content. rewrite list_elem_of_omap.
  intros ([u' c'|t'] & Hin & Hm); [|done].
  destruct (decide (u' = k)); by simplify_eq.
Qed.

Lemma tweets_of_tweets (ts : list tweet) : tweets_of (TweetDoc <$> ts) = ts.
Proof.
  unfold tweets_of. induction ts as [|t ts IH]; cbn; [done|]. by rewrite IH.
Qed.

Lemma content_of_tweets (ts : list tweet) : content_of (TweetDoc <$> ts) = [].
Proof. unfold content_of. by induction ts as [|t ts IH]. Qed.

Lemma tweets_of_perm res res' :
  res ≡ₚ res' → tweets_of res ≡ₚ tweets_of res' ∧ content_of res ≡ₚ content_of res'.
Proof. intros Hperm. unfold tweets_of, content_of. by rewrite Hperm. Qed.

Lemma tweets_of_app res res' :
  tweets_of (res ++ res') = tweets_of res ++ tweets_of res'.
Proof. apply omap_app. Qed.

Lemma content_of_app res res' :
  content_of (res ++ res') = content_of res ++ content_of res'.
Proof. apply omap_app. Qed.

(** One turn of the loop moves the tweets and the content it takes off
    the documents into the record it emits. *)
Lemma merge_step_keeps index result rest :
  let '(it, rest') := merge_step index result rest in
  tweets_of (result :: rest) ≡ₚ item_tweets it ++ tweets_of rest'
  ∧ content_of (result :: rest)
      ≡ₚ option_list (pair (item_url it) <$> item_meta it) ++ content_of rest'
  ∧ Forall (λ t, content_url t = item_url it) (item_tweets it)
  ∧ item_rank it = index + 1.
Proof.
  destruct result as [u c|t]; cbn [merge_step].
  - cbn [item_tweets item_meta item_url item_rank].
    pose proof (pop_all_perm (TweetDoc <$> matching_tweets u rest) rest
                  (sublist_submseteq _ _ (matching_tweets_sublist u rest)))
      as Hperm.
    rewrite <- foldl_pop_tweets in Hperm.
    set (rest' := foldl _ rest _) in *.
    apply tweets_of_perm in Hperm as [Hts Hcs].
    rewrite tweets_of_app, tweets_of_tweets in Hts.
    rewrite content_of_app, content_of_tweets in Hcs.
    split; [exact Hts|]. split; [|split; [|done]].
    + apply (perm_skip (u, c)), Hcs.
    + apply Forall_forall. intros t. apply matching_tweets_url.
  - destruct (matching_content (content_url t) rest) as [|[u c] more] eqn:Hm;
      cbn [item_tweets item_meta item_url item_rank].
    { split; [done|]. split; [done|]. split; [by constructor|done]. }
    assert ((u, c) ∈ matching_content (content_url t) rest) as Hin
      by (rewrite Hm; by left).
    apply matching_content_elem in Hin as [-> Hin].
    apply pop_first_perm, tweets_of_perm in Hin as [Hts Hcs].
    split; [|split; [exact Hcs|split; [by constructor|done]]].
    apply (perm_skip t), Hts.
Qed.

Lemma merge_loop_keeps fuel index res :
  length res ≤ fuel →
  let items := merge_loop fuel index res in
  concat (item_tweets <$> items) ≡ₚ tweets_of res
  ∧ omap (λ it, pair (item_url it) <$> item_meta it) items ≡ₚ content_of res
  ∧ Forall (λ it, Forall (λ t, content_url t = item_url it) (item_tweets it))
      items
  ∧ item_rank <$> items = seq (index + 1) (length items).
Proof.
  cbv zeta. revert index res.
  induction fuel as [|fuel IH]; intros index [|result rest] Hfuel;
    try done; [cbn in Hfuel; lia|].
  cbn [merge_loop].
  pose proof (merge_step_keeps index result rest) as Hstep.
  pose proof (merge_step_length index result rest) as Hlen.
  destruct (merge_step index result rest) as [it rest'].
  destruct Hstep as (Hts & Hcs & Hurl & Hrank).
  cbn [snd length] in Hlen, Hfuel.
  destruct (IH (S index) rest') as (IHts & IHcs & IHurl & IHrank); [lia|].
  split; [|split; [|split]].
  - rewrite fmap_cons, concat_cons, IHts. by symmetry.
  - rewrite Hcs, <- IHcs. cbn. by destruct (item_meta it).
  - by constructor.
  - by rewrite fmap_cons, IHrank, Hrank.
Qed.

Lemma merge_loop_length fuel index res :
  length (merge_loop fuel index res) ≤ length res.
Proof.
  revert index res.
  induction fuel as [|fuel IH]; intros index [|result rest]; cbn; try lia.
  pose proof (merge_step_length index result rest) as Hlen.
  destruct (merge_step index result rest) as [it rest']. cbn in *.
  specialize (IH (S index) rest'). lia.
Qed.

(** X7. The records of [search_items] are ranked 1, 2, 3, ... in the order
    they are returned, without a gap where documents were merged, and
    there are at most as many records as documents. *)
Theorem search_items_ranks (res : list document) :
  item_rank <$> search_items res = seq 1 (length (search_items res))
  ∧ length (search_items res) ≤ length res.
Proof.
  split; [by apply (merge_loop_keeps (length res) 0 res)|].
  apply merge_loop_length.
Qed.

(** X8. [search_items] loses and repeats nothing: every tweet of the
    search is nested in exactly one record, and every content document is
    the content of exactly one record. *)
Theorem search_items_keeps_documents (res : list document) :
  concat (item_tweets <$> search_items res) ≡ₚ tweets_of res
  ∧ omap (λ it, pair (item_url it) <$> item_meta it) (search_items res)
      ≡ₚ content_of res.
Proof.
  destruct (merge_loop_keeps (length res) 0 res) as (Hts & Hcs & _); done.
Qed.

(** X9. Every tweet nested in a record of [search_items] links to the url
    of the record. *)
Theorem search_items_nested_urls (res : list document) (it : item) (t : tweet) :
  it ∈ search_items res → t ∈ item_tweets it → content_url t = item_url it.
Proof.
  intros Hit Ht.
  destruct (merge_loop_keeps (length res) 0 res) as (_ & _ & Hurl & _); [done|].
  eapply Forall_forall in Hurl; [|exact Hit].
  by eapply Forall_forall in Hurl.
Qed.

(** ** Facts: what a dequeue leaves in the queue *)

Lemma next_unprocessed_tweet_remaining fuel env n docs not_ids r :
  next_unprocessed_tweet fuel env n docs not_ids = Ok r →
  _id <$> remaining r `sublist_of` _id <$> docs.
Proof.
  intros Hr.
  destruct (next_unprocessed_tweet_returns
              (fuel `max` S (length (visible not_ids docs))) env n docs not_ids)
    as (r' & Hr' & _ & _ & Hsub); [lia|].
  apply (next_unprocessed_tweet_more_fuel _
           (fuel `max` S (length (visible not_ids docs)))) in Hr; [|lia].
  rewrite Hr in Hr'. by injection Hr' as <-.
Qed.

(** X10. The raw tweet a call returns is gone from the index when the
    call returns, whatever other processes did meanwhile; it was in the
    index when the call started and is none of the excluded ids. *)
Theorem next_unprocessed_tweet_removes fuel env n docs not_ids r t :
  next_unprocessed_tweet fuel env n docs not_ids = Ok r →
  returned r = Some t →
  (_id t ∉ _id <$> remaining r)
  ∧ (_id t ∈ _id <$> docs)
  ∧ (_id t ∉ default [] not_ids).
Proof.
  revert n docs not_ids.
  induction fuel as [|fuel IH]; intros n docs not_ids; [done|].
  cbn [next_unprocessed_tweet].
  set (docs1 := foldl interfere docs (env (2 * n))).
  pose proof (interference_ids docs (env (2 * n))) as Hd1. fold docs1 in Hd1.
  destruct (search_raw not_ids docs1) as [result|] eqn:Hsearch.
  2:{ by intros [= <-]. }
  unfold search_raw in Hsearch. apply head_Some_elem_of in Hsearch.
  set (docs2 := foldl interfere docs1 (env (2 * n + 1))).
  pose proof (interference_ids docs1 (env (2 * n + 1))) as Hd2.
  fold docs2 in Hd2.
  destruct (delete_raw (_id result) (_version result) docs2)
    as [docs'| |] eqn:Hdelete.
  - apply delete_raw_Deleted in Hdelete as ->.
    intros [= <-]. cbn [returned remaining]. intros [= <-].
    split; [|split].
    + intros (d & Hid & Hd)%list_elem_of_fmap.
      by apply list_elem_of_filter in Hd as [Hne _].
    + eapply elem_of_sublist; [|exact Hd1]. apply list_elem_of_fmap_2.
      eapply elem_of_sublist; [done|apply visible_sublist].
    + destruct not_ids as [ids|]; [|apply not_elem_of_nil].
      by apply list_elem_of_filter in Hsearch as [Hnot _].
  - intros Hr Ht. destruct (IH _ _ _ Hr Ht) as (Hgone & Hin & Hnot).
    split; [done|]. split; [|done].
    eapply elem_of_sublist; [exact Hin|by etrans].
  - intros Hr Ht. destruct (IH _ _ _ Hr Ht) as (Hgone & Hin & Hnot).
    split; [done|]. split.
    + eapply elem_of_sublist; [exact Hin|by etrans].
    + destruct not_ids as [ids|]; [|apply not_elem_of_nil].
      cbn [default] in *. intros Hids. apply Hnot, elem_of_app. by left.
Qed.

(** A call that returns no tweet leaves only raw tweets whose ids it has
    excluded, one more for every version conflict it met. *)
Lemma next_unprocessed_tweet_None fuel env n docs not_ids r :
  next_unprocessed_tweet fuel env n docs not_ids = Ok r →
  returned r = None →
  ∃ ids,
    (∀ d, d ∈ remaining r → _id d ∈ ids)
    ∧ n ≤ retries r
    ∧ length ids ≤ length (default [] not_ids) + (retries r - n).
Proof.
  revert n docs not_ids.
  induction fuel as [|fuel IH]; intros n docs not_ids; [done|].
  cbn [next_unprocessed_tweet].
  set (docs1 := foldl interfere docs (env (2 * n))).
  destruct (search_raw not_ids docs1) as [result|] eqn:Hsearch.
  2:{ intros [= <-] _. cbn [remaining retries].
      exists (default [] not_ids). split; [|lia].
      unfold search_raw in Hsearch. apply head_None in Hsearch.
      destruct not_ids as [ids|]; cbn [visible default] in *.
      - intros d Hd. destruct (decide (_id d ∈ ids)) as [|Hnot]; [done|].
        by apply (filter_nil_not_elem_of _ _ d Hsearch) in Hnot.
      - rewrite Hsearch. by intros d ?%elem_of_nil. }
  set (docs2 := foldl interfere docs1 (env (2 * n + 1))).
  destruct (delete_raw (_id result) (_version result) docs2)
    as [docs'| |] eqn:Hdelete.
  - by intros [= <-].
  - intros Hr Hnone. destruct (IH _ _ _ Hr Hnone) as (ids & Hids & Hn & Hlen).
    exists ids. split; [done|]. lia.
  - intros Hr Hnone. destruct (IH _ _ _ Hr Hnone) as (ids & Hids & Hn & Hlen).
    exists ids. split; [done|]. split; [lia|].
    etrans; [exact Hlen|].
    destruct not_ids as [ids'|]; simpl; rewrite ?length_app; simpl; lia.
Qed.

(** X11. When a call on an index of distinct raw tweets returns no tweet,
    the index need not be empty: what is left are raw tweets that met a
    version conflict during the call, at most one for each further call
    made, and none when the first search already found nothing. *)
Theorem next_unprocessed_tweet_None_leaves_conflicts fuel env docs r :
  NoDup (_id <$> docs) →
  next_unprocessed_tweet fuel env 0 docs None = Ok r →
  returned r = None →
  length (remaining r) ≤ retries r.
Proof.
  intros Hids Hr Hnone.
  destruct (next_unprocessed_tweet_None _ _ _ _ _ _ Hr Hnone)
    as (ids & Hsub & _ & Hlen).
  cbn [default length] in Hlen. rewrite Nat.sub_0_r in Hlen.
  etrans; [|exact Hlen]. rewrite <- (length_fmap _id).
  apply submseteq_length, NoDup_submseteq.
  - eapply sublist_NoDup; [exact Hids|].
    by eapply next_unprocessed_tweet_remaining.
  - intros k (d & -> & Hd)%list_elem_of_fmap. by apply Hsub.
Qed.

(** X12. A call that no other process disturbs needs no further call: it
    returns a raw tweet of the index and deletes the document of that id,
    or returns [None] on an empty index. *)
Theorem next_unprocessed_tweet_undisturbed fuel docs :
  ∃ r,
    next_unprocessed_tweet (S fuel) (λ _, []) 0 docs None = Ok r
    ∧ retries r = 0
    ∧ match returned r with
      | Some t => t ∈ docs ∧ remaining r = filter (λ d, _id d ≠ _id t) docs
      | None => docs = [] ∧ remaining r = []
      end.
Proof.
  cbn [next_unprocessed_tweet foldl]. unfold search_raw. cbn [visible].
  destruct docs as [|d docs]; cbn [head]; [by eexists|].
  unfold delete_raw. rewrite filter_cons_True by done.
  rewrite decide_True by done.
  eexists. split; [done|]. split; [done|]. cbn [returned remaining].
  split; [by left|done].
Qed.

(** ** The facts at sample inputs *)

(** C5 as stated fails: with decay enabled a link without tweeters gets
    an explanation line. *)
Lemma score_link_no_tweeters_decay_line :
  score_link log_series (clock_at 3600) Sample.anonymous_link ∅ true 24 =
    Ok (0%float, [DecayLine 1 0 0 0])
  ∧ score_link log_series (clock_at 3600) Sample.anonymous_link ∅ true 24 ≠
    Ok (0%float, []).
Proof. split; [vm_compute; reflexivity | vm_compute; discriminate]. Qed.

Lemma score_link_no_tweeters_witness :
  score_link log_series (clock_at 3600) Sample.anonymous_link ∅ false 24 =
    Ok (0%float, [])
  ∧ ∀ fh first rest fm,
      float_of_Z 24 = Ok fh →
      PrimFloat.eqb fh 0 = false →
      first_tweets Sample.anonymous_link = first :: rest →
      float_of_Z (clock_at 3600 (sort0 first) + 1) = Ok fm →
      PrimFloat.eqb fm 0 = false →
      let hours_since := (clock_at 3600 (sort0 first) `div` 60)%Z in
      let final :=
        Nat.iter (Z.to_nat hours_since) (λ s, s * (1 - 1 / fh))%float
          0%float in
      score_link log_series (clock_at 3600) Sample.anonymous_link ∅ true 24 =
        Ok (final, [DecayLine hours_since final final (0 / fm)])
      ∧ (PrimFloat.is_finite (1 - 1 / fh) = true →
         PrimFloat.eqb final 0 = true).
Proof.
  apply (score_link_no_tweeters log_series (clock_at 3600)
           Sample.anonymous_link ∅ 24).
  reflexivity.
Defined.

(** C6 as stated fails: a window of 0 hours raises, and a window of -1
    hour doubles the score after one hour. *)
Lemma score_link_window_not_skipped :
  score_link log_series (clock_at 3600) Sample.shared_link Sample.weights
    true 0 = Raise ZeroDivisionError
  ∧ fst <$> score_link log_series (clock_at 3600) Sample.shared_link
              Sample.weights true (-1) =
    Ok (log_series 11 * 2)%float.
Proof. split; vm_compute; reflexivity. Qed.

Lemma score_link_window_below_one_witness :
  (-1 < 1)%Z
  ∧ Forall (log_defined Sample.weights) (tweeters Sample.shared_link)
  ∧ ((-1 = 0)%Z →
     score_link log_series (clock_at 3600) Sample.shared_link Sample.weights
       true (-1) = Raise ZeroDivisionError)
  ∧ ∀ fh first rest fm,
      float_of_Z (-1) = Ok fh →
      PrimFloat.eqb fh 0 = false →
      first_tweets Sample.shared_link = first :: rest →
      float_of_Z (clock_at 3600 (sort0 first) + 1) = Ok fm →
      PrimFloat.eqb fm 0 = false →
      ∃ e,
        score_link log_series (clock_at 3600) Sample.shared_link
          Sample.weights true (-1) =
          Ok (Nat.iter (Z.to_nat (clock_at 3600 (sort0 first) `div` 60))
                (λ s, s * (1 - 1 / fh))%float
                (total_contribution log_series Sample.weights
                   (key <$> tweeters Sample.shared_link)), e).
Proof.
  assert (Forall (log_defined Sample.weights) (tweeters Sample.shared_link))
    as Hdef.
  { repeat (constructor; [vm_compute; reflexivity|]). constructor. }
  split; [lia|]. split; [exact Hdef|].
  apply (score_link_window_below_one log_series (clock_at 3600)
           Sample.shared_link Sample.weights (-1)); [lia | exact Hdef].
Defined.

(** C1 at a sample link: two tweeters, one of them not tracked any more. *)
Lemma score_link_sum_and_decay_witness :
  tweeters Sample.shared_link ≠ []
  ∧ Forall (log_defined Sample.weights) (tweeters Sample.shared_link)
  ∧ (∃ e,
       score_link log_series (clock_at 3600) Sample.shared_link Sample.weights
         false 24 =
         Ok (total_contribution log_series Sample.weights
               (key <$> tweeters Sample.shared_link), e)
       ∧ omap line_tweeter e = key <$> tweeters Sample.shared_link
       ∧ length e = length (tweeters Sample.shared_link))
  ∧ ∃ e d,
      score_link log_series (clock_at 3600) Sample.shared_link Sample.weights
        true 24 =
        Ok (Nat.iter 1 (λ s, s * (1 - 1 / 24))%float
              (total_contribution log_series Sample.weights
                 (key <$> tweeters Sample.shared_link)),
            e ++ [d])
      ∧ omap line_tweeter e = key <$> tweeters Sample.shared_link
      ∧ length e = length (tweeters Sample.shared_link)
      ∧ line_tweeter d = None.
Proof.
  assert (tweeters Sample.shared_link ≠ []) as Hne by discriminate.
  assert (Forall (log_defined Sample.weights) (tweeters Sample.shared_link))
    as Hdef.
  { repeat (constructor; [vm_compute; reflexivity|]). constructor. }
  destruct (score_link_sum_and_decay log_series (clock_at 3600)
              Sample.shared_link Sample.weights 24 Hne Hdef)
    as (Hplain & Hdecay & _).
  split; [exact Hne|]. split; [exact Hdef|]. split; [exact Hplain|].
  apply (Hdecay 24%float (Hit 0 (Tweet "t1" "http://a.example/1" "alice" 0))
           [Hit 30 (Tweet "t2" "http://a.example/1" "bob" 30)] 61%float);
    reflexivity.
Defined.

(** The example of the design document: decay on, a window of 4 hours,
    one tweeter of weight 10, the first tweet 0 minutes ago: [ln 101]. *)
Example score_link_design_example :
  fst <$> score_link log_series (clock_at 0)
            (Link "http://a.example/1" 2 [TermBucket "alice" 2]
               [Hit 0 (Tweet "t1" "http://a.example/1" "alice" 0)])
            {[ "alice" := 10%float ]} true 4 =
    Ok (log_series 101).
Proof. vm_compute. reflexivity. Qed.

(** C2 at the sample universe. *)
Lemma get_items_sorted_and_ranked_witness :
  ∃ ls,
    scored_links log_series (clock_at 200) Sample.trending 5 24 100 200 false
      = Ok ls
    ∧ Forall (λ sl, PrimFloat.is_nan (sl_score sl) = false) ls
    ∧ ∃ out,
        get_items log_series (clock_at 200) Sample.trending 5 24 100 200 false
          = Ok out
        ∧ length out ≤ 5
        ∧ rank <$> out = seq 1 (length out)
        ∧ StronglySorted (λ a b, PrimFloat.ltb (score a) (score b) = false) out
        ∧ ∀ a b,
            [a; b] `sublist_of` out →
            tie (score a) (score b) →
            [url a; url b] `sublist_of`
              link_key <$> content_buckets 100 200 (5 * 2)
                (tweet_docs Sample.trending).
Proof.
  eexists. split; [vm_compute; reflexivity|].
  match goal with
  | |- ?no_nan ∧ _ =>
      assert no_nan as Hnan
        by (repeat (constructor; [vm_compute; reflexivity|]); constructor)
  end.
  split; [exact Hnan|].
  edestruct (get_items_sorted_and_ranked log_series (clock_at 200)
               Sample.trending 5 24 100 200 false)
    as (out & Hout & Hlen & Hrank & Hsorted); [vm_compute; reflexivity|].
  exists out. split; [exact Hout|]. split; [exact Hlen|].
  split; [exact Hrank|]. exact (Hsorted Hnan).
Defined.

(** C3 as stated fails: the link [seen] was tweeted at time 50, before
    the window from 100 to 200, and is returned, because the 1000 tweets
    the second request returns all refer to the other link. *)
Lemma get_items_returns_seen_link :
  fmap (M:=list) url <$> get_items log_series (clock_at 200) Sample.crowded 5 24
                 100 200 false
    = Ok ["http://a.example/seen"]
  ∧ Tweet "s1" "http://a.example/seen" "erin" 50 ∈ tweet_docs Sample.crowded
  ∧ (50 ≤ 100)%Z.
Proof.
  split; [vm_compute; reflexivity|]. split; [|lia].
  cbn [tweet_docs Sample.crowded]. apply elem_of_app. right. left.
Qed.

Lemma get_items_excludes_seen_witness :
  length (filter (λ t, content_url t
                         ∈ link_key <$> content_buckets 100 200 (5 * 2)
                                          (tweet_docs Sample.trending)
                       ∧ (created t ≤ 100)%Z)
            (tweet_docs Sample.trending)) ≤ 1000
  ∧ ∃ out,
      get_items log_series (clock_at 200) Sample.trending 5 24 100 200 false
        = Ok out
      ∧ ∀ r t, r ∈ out → t ∈ tweet_docs Sample.trending →
          content_url t = url r → (100 < created t)%Z.
Proof.
  assert (length (filter (λ t, content_url t
                         ∈ link_key <$> content_buckets 100 200 (5 * 2)
                                          (tweet_docs Sample.trending)
                       ∧ (created t ≤ 100)%Z)
            (tweet_docs Sample.trending)) ≤ 1000) as Hfew.
  { vm_compute. lia. }
  split; [exact Hfew|]. eexists. split; [vm_compute; reflexivity|].
  destruct (get_items_excludes_seen log_series (clock_at 200)
              Sample.trending 5 24 100 200 false) as [_ Hout].
  edestruct Hout as [_ Hseen]; [vm_compute; reflexivity|].
  exact (Hseen Hfew).
Defined.

(** C4 as stated fails: link 2 is returned, and a single user tweeted it
    (twice) in the window. *)
Lemma get_items_returns_single_tweeter_link :
  fmap (M:=list) url <$> get_items log_series (clock_at 200) Sample.trending 5 24
                 100 200 false
    = Ok ["http://a.example/1"; "http://a.example/2"]
  ∧ remove_dups
      (user_id <$> filter (λ t, content_url t = "http://a.example/2")
                     (recent_tweets 100 200 (tweet_docs Sample.trending)))
    = ["alice"].
Proof. split; vm_compute; reflexivity. Qed.

Lemma get_items_min_doc_count_witness :
  ∃ out r,
    get_items log_series (clock_at 200) Sample.trending 5 24 100 200 false
      = Ok out
    ∧ r ∈ out
    ∧ 2 ≤ length (filter (λ t, content_url t = url r)
                    (recent_tweets 100 200 (tweet_docs Sample.trending))).
Proof.
  eexists _, _. split; [vm_compute; reflexivity|]. split; [left|].
  eapply (get_items_min_doc_count log_series (clock_at 200) Sample.trending
            5 24 100 200 false); [vm_compute; reflexivity|left].
Defined.


(** C8 fails on the code: the record carries the tweet of time 20 and the
    tweet of time 10, in the order of the search results, and its
    [first_tweeted] is computed from the first of them, of time 20. *)
Theorem search_items_first_tweeted_from_first_nested :
  search_items Sample.search_results =
    [Item type_content "http://a.example/1" (Some (Content "one"))
       [Sample.later_tweet; Sample.earlier_tweet] 1 (Some (SinceNow 20))]
  ∧ created Sample.earlier_tweet = 10%Z
  ∧ created Sample.later_tweet = 20%Z.
Proof. split; [vm_compute; reflexivity|]. split; reflexivity. Qed.

(** Paging at the sample universe: the seven tweet ids without a size,
    and the same seven with [size=3]. *)
Lemma get_all_docs_everything_witness :
  length (tweet_docs Sample.trending) < 5000 * 1
  ∧ get_all_docs 1 tweet_id (tweet_docs Sample.trending) None
      = Some ["t1"; "t2"; "t3"; "t4"; "t5"; "t6"; "t7"].
Proof.
  assert (length (tweet_docs Sample.trending) < 5000 * 1) as Hfuel
    by (vm_compute; lia).
  split; [done|].
  exact (get_all_docs_everything 1 tweet_id (tweet_docs Sample.trending) Hfuel).
Defined.

Lemma get_all_docs_whole_pages_witness :
  0 < 1 ∧ (3 ≤ 5000 * Z.of_nat 1)%Z
  ∧ get_all_docs 1 tweet_id (tweet_docs Sample.trending) (Some 3%Z)
      = Some ["t1"; "t2"; "t3"; "t4"; "t5"; "t6"; "t7"].
Proof.
  assert (0 < 1) as Hfuel by lia.
  assert (3 ≤ 5000 * Z.of_nat 1)%Z as Hsize by lia.
  do 2 (split; [done|]).
  exact (get_all_docs_whole_pages 1 tweet_id (tweet_docs Sample.trending) 3
           Hfuel Hsize).
Defined.

(** Cleanup of the sample indices with the cutoff at 125: the tweets of
    link 1 and the first tweet of link 3 go, and the content of link 1
    with them. *)
Lemma cleanup_deletes_old_witness :
  NoDup (tweet_id <$> tweet_docs (universe_index Sample.stale))
  ∧ ∃ c',
      cleanup 125 Sample.stale = Some c'
      ∧ tweet_docs (universe_index c')
          = filter (λ t, 125 ≤ created t)%Z
              (tweet_docs (universe_index Sample.stale))
      ∧ content_docs (universe_index c')
          = filter (λ p, p.1 ∈ content_url <$> tweet_docs (universe_index c'))
              (content_docs (universe_index Sample.stale)).
Proof.
  assert (NoDup (tweet_id <$> tweet_docs (universe_index Sample.stale)))
    as Hids by (apply (bool_decide_unpack _); vm_compute; exact I).
  split; [done|].
  exact (cleanup_deletes_old 125 Sample.stale Hids).
Defined.

Lemma cleanup_twice_witness :
  ∃ c',
    NoDup (tweet_id <$> tweet_docs (universe_index Sample.stale))
    ∧ cleanup 125 Sample.stale = Some c'
    ∧ cleanup 125 c' = Some c'.
Proof.
  assert (NoDup (tweet_id <$> tweet_docs (universe_index Sample.stale)))
    as Hids by (apply (bool_decide_unpack _); vm_compute; exact I).
  destruct (cleanup 125 Sample.stale) as [c'|] eqn:Hc.
  - exists c'. split; [done|]. split; [done|].
    exact (cleanup_twice 125 Sample.stale c' Hids Hc).
  - exfalso. rewrite cleanup_returns in Hc. discriminate.
Defined.

(** The record of the sample search nests the earlier tweet, which links
    to the url of the record. *)
Lemma search_items_nested_urls_witness :
  ∃ it,
    it ∈ search_items Sample.search_results
    ∧ Sample.earlier_tweet ∈ item_tweets it
    ∧ content_url Sample.earlier_tweet = item_url it.
Proof.
  assert (∃ it, it ∈ search_items Sample.search_results
                ∧ Sample.earlier_tweet ∈ item_tweets it) as (it & Hit & Ht).
  { eexists. split; [vm_compute; left|]. vm_compute. right. left. }
  exists it. split; [done|]. split; [done|].
  exact (search_items_nested_urls Sample.search_results it
           Sample.earlier_tweet Hit Ht).
Defined.

(** The busy queue: the third raw tweet is returned after a conflict on
    the first and the loss of the second, and only the first is left. On
    a queue of the first alone the call returns nothing and leaves it. *)
Lemma next_unprocessed_tweet_removes_witness :
  next_unprocessed_tweet 4 Sample.busy 0 Sample.queue None
    = Ok (Dequeued (Some (RawTweet "r3" 1)) [RawTweet "r1" 2] 2)
  ∧ ("r3" ∉ _id <$> [RawTweet "r1" 2])
  ∧ ("r3" ∈ _id <$> Sample.queue)
  ∧ ("r3" ∉ default [] (None : option (list string))).
Proof.
  assert (next_unprocessed_tweet 4 Sample.busy 0 Sample.queue None
            = Ok (Dequeued (Some (RawTweet "r3" 1)) [RawTweet "r1" 2] 2))
    as Hr by (vm_compute; reflexivity).
  split; [exact Hr|].
  exact (next_unprocessed_tweet_removes 4 Sample.busy 0 Sample.queue None
           _ (RawTweet "r3" 1) Hr eq_refl).
Defined.

Lemma next_unprocessed_tweet_None_leaves_conflicts_witness :
  NoDup (_id <$> [RawTweet "r1" 1])
  ∧ next_unprocessed_tweet 2 Sample.busy 0 [RawTweet "r1" 1] None
      = Ok (Dequeued None [RawTweet "r1" 2] 1)
  ∧ length [RawTweet "r1" 2] ≤ 1.
Proof.
  assert (NoDup (_id <$> [RawTweet "r1" 1])) as Hids
    by (apply (bool_decide_unpack _); vm_compute; exact I).
  assert (next_unprocessed_tweet 2 Sample.busy 0 [RawTweet "r1" 1] None
            = Ok (Dequeued None [RawTweet "r1" 2] 1))
    as Hr by (vm_compute; reflexivity).
  split; [exact Hids|]. split; [exact Hr|].
  exact (next_unprocessed_tweet_None_leaves_conflicts 2 Sample.busy
           [RawTweet "r1" 1] _ Hids Hr eq_refl).
Defined.

(** A window of 0 hours on the sample universe: the division by the
    window fails in [score_link], [get_items] fails with it, and
    [get_top_link] too. *)
Lemma get_items_failure_witness :
  get_items log_series (clock_at 200) Sample.trending 5 0 100 200 true
    = Raise ZeroDivisionError
  ∧ ZeroDivisionError ≠ IndexError
  ∧ (true = false → ZeroDivisionError = ValueError)
  ∧ ∃ l, l ∈ candidate_links Sample.trending 5 100 200 true
         ∧ score_link log_series (clock_at 200) l
             (candidate_weights Sample.trending
                (candidate_links Sample.trending 5 100 200 true)) true 0
             = Raise ZeroDivisionError.
Proof.
  assert (get_items log_series (clock_at 200) Sample.trending 5 0 100 200 true
            = Raise ZeroDivisionError) as Herr by (vm_compute; reflexivity).
  split; [exact Herr|].
  exact (get_items_failure log_series (clock_at 200) Sample.trending 5 0 100
           200 true ZeroDivisionError Herr).
Defined.

Lemma get_top_link_reraises_witness :
  get_items log_series (clock_at 200) Sample.trending 5 0 100 200 true
    = Raise ZeroDivisionError
  ∧ get_top_link log_series (clock_at 200) Sample.trending 0 5 100 200
      = Raise ZeroDivisionError.
Proof.
  assert (get_items log_series (clock_at 200) Sample.trending 5 0 100 200 true
            = Raise ZeroDivisionError) as Herr by (vm_compute; reflexivity).
  split; [exact Herr|].
  exact (get_top_link_reraises log_series (clock_at 200) Sample.trending 0 5
           100 200 ZeroDivisionError Herr).
Defined.

(** The first link the sample universe returns, with its two tweets. *)
Lemma get_items_tweets_witness :
  ∃ out r,
    get_items log_series (clock_at 200) Sample.trending 5 24 100 200 false
      = Ok out
    ∧ r ∈ out
    ∧ let ds :=
        filter (λ t, content_url t = url r)
          (recent_tweets 100 200 (tweet_docs Sample.trending)) in
      2 ≤ length (tweets r) ≤ 3
      ∧ length (tweets r) = 3 `min` length ds
      ∧ (∀ t, t ∈ tweets r → t ∈ ds)
      ∧ StronglySorted (λ a b, created a ≤ created b)%Z (tweets r)
      ∧ (∀ t t', t ∈ tweets r → t' ∈ ds → t' ∉ tweets r →
           (created t ≤ created t')%Z)
      ∧ ∃ t0,
          head (tweets r) = Some t0 ∧ first_tweeted r = SinceNow (created t0).
Proof.
  assert (∃ out r,
            get_items log_series (clock_at 200) Sample.trending 5 24 100 200
              false = Ok out ∧ r ∈ out) as (out & r & Hout & Hr).
  { eexists _, _. split; [vm_compute; reflexivity|left]. }
  exists out, r. split; [done|]. split; [done|].
  exact (get_items_tweets log_series (clock_at 200) Sample.trending 5 24 100
           200 false out r Hout Hr).
Defined.

(** C9 as stated fails: with 1100 raw tweets, each deleted by another
    consumer before the call deletes it, the call nests deeper than the
    1000 frames of the recursion limit and raises, where three frames are
    enough on the busy queue. *)
Lemma next_unprocessed_tweet_recursion_limit :
  next_unprocessed_tweet 1000 Sample.rival 0 Sample.backlog None
    = Raise RuntimeError
  ∧ next_unprocessed_tweet 3 Sample.busy 0 Sample.queue None
    = Ok (Dequeued (Some (RawTweet "r3" 1)) [RawTweet "r1" 2] 2).
Proof. split; vm_compute; reflexivity. Qed.

(** C2 as stated fails: a weight of 1e308 makes the total of link 2
    infinite, one hour of decay multiplies it by 0.0, and the NaN that
    results stays where it is in Python's sort, between the scores
    ln 11 and ln 101 of the links around it: the list is returned
    unsorted, with the ranks 1, 2, 3. *)
Lemma get_items_unsorted_with_nan :
  ∃ a b c,
    get_items log_series (clock_at 10000) Sample.skewed 5 1 50 10000 true
      = Ok [a; b; c]
    ∧ url <$> [a; b; c]
        = ["http://a.example/1"; "http://a.example/2"; "http://a.example/3"]
    ∧ rank <$> [a; b; c] = [1; 2; 3]
    ∧ PrimFloat.is_nan (score b) = true
    ∧ PrimFloat.ltb (score a) (score c) = true
    ∧ ¬ StronglySorted (λ x y, PrimFloat.ltb (score x) (score y) = false)
          [a; b; c].
Proof.
  eexists _, _, _. split; [vm_compute; reflexivity|].
  do 4 (split; [vm_compute; reflexivity|]).
  intros [_ Ha]%StronglySorted_inv.
  apply Forall_cons in Ha as [_ [Hac _]%Forall_cons].
  vm_compute in Hac. discriminate.
Qed.

(** C10 at the cap: the viral link has 1001 distinct tweeters in the
    window, 1000 of them are counted, and [u999], the only one with a
    weight, is not: the score is the total over the 1000 others, 0. *)
Lemma get_items_at_most_1000_tweeters_witness :
  ∃ out r,
    get_items log_series (clock_at 200) Sample.viral 5 24 100 200 false
      = Ok out
    ∧ r ∈ out
    ∧ url r = "http://a.example/viral"
    ∧ (let docs :=
         filter (λ t, content_url t = url r)
           (recent_tweets 100 200 (tweet_docs Sample.viral)) in
       let counted := take 1000 (buckets user_id 1 docs).*1 in
       length (remove_dups (user_id <$> docs)) = 1001
       ∧ length counted = 1000
       ∧ "u999" ∈ user_id <$> docs
       ∧ ("u999" ∉ counted)
       ∧ user_docs Sample.viral !! "u999" = Some 10%float
       ∧ PrimFloat.eqb (score r) 0 = true)
    ∧ (let docs :=
         filter (λ t, content_url t = url r)
           (recent_tweets 100 200 (tweet_docs Sample.viral)) in
       let counted := take 1000 (buckets user_id 1 docs).*1 in
       (buckets user_id 1 docs).*1 ≡ₚ remove_dups (user_id <$> docs)
       ∧ length counted ≤ 1000
       ∧ ∃ ws,
           (∀ k, k ∈ counted → ws !! k = user_docs Sample.viral !! k)
           ∧ score r = total_contribution log_series ws counted).
Proof.
  eexists _, _. split; [vm_compute; reflexivity|]. split; [left|].
  split; [reflexivity|]. split.
  - cbv zeta. split; [vm_compute; reflexivity|].
    split; [vm_compute; reflexivity|].
    split; [apply (bool_decide_unpack _); vm_compute; exact I|].
    split; [apply (bool_decide_unpack _); vm_compute; exact I|].
    split; vm_compute; reflexivity.
  - eapply (get_items_at_most_1000_tweeters log_series (clock_at 200)
              Sample.viral 5 24 100 200 false);
      [vm_compute; reflexivity|left].
Defined.

(** The sample universe: the link that breaks out, and the call after it
    was added to the top links. *)
Lemma get_top_link_after_promotion_witness :
  ∃ l next,
    get_top_link log_series (clock_at 200) Sample.trending 24 5 100 200
      = Ok (Some l)
    ∧ get_top_link log_series (clock_at 200)
        (add_to_top_links Sample.trending l) 24 5 100 200 = Ok next
    ∧ ∀ l', next = Some l' →
        url l' ≠ url l ∧ (url l' ∉ top_content Sample.trending)
        ∧ rank l < rank l'.
Proof.
  assert (∃ l, get_top_link log_series (clock_at 200) Sample.trending 24 5
                 100 200 = Ok (Some l)) as [l Hl].
  { eexists. vm_compute. reflexivity. }
  destruct (get_top_link_after_promotion log_series (clock_at 200)
              Sample.trending 24 5 100 200 l Hl) as (next & Hnext & Hafter).
  exists l, next. exact (conj Hl (conj Hnext Hafter)).
Defined.

(** The sample universe without the tweets of link 1, and without the
    content of link 1. *)
Lemma get_items_after_delete_tweets_witness :
  ∃ out,
    get_items log_series (clock_at 200)
      (delete_tweets_by_url Sample.trending "http://a.example/1") 5 24 100
      200 false = Ok out
    ∧ "http://a.example/1" ∉ url <$> out.
Proof.
  assert (∃ out,
            get_items log_series (clock_at 200)
              (delete_tweets_by_url Sample.trending "http://a.example/1") 5
              24 100 200 false = Ok out) as [out Hout].
  { eexists. vm_compute. reflexivity. }
  exists out. split; [exact Hout|].
  exact (get_items_after_delete_tweets log_series (clock_at 200)
           Sample.trending "http://a.example/1" 5 24 100 200 false out Hout).
Defined.

Lemma get_items_after_delete_content_witness :
  ∃ u' out out',
    delete_content_by_url Sample.trending "http://a.example/1" = Some u'
    ∧ get_items log_series (clock_at 200) Sample.trending 5 24 100 200 false
        = Ok out
    ∧ get_items log_series (clock_at 200) u' 5 24 100 200 false = Ok out'
    ∧ (λ r, (url r, score r)) <$> out'
        = filter (λ p, p.1 ≠ "http://a.example/1")
            ((λ r, (url r, score r)) <$> out)
    ∧ rank <$> out' = seq 1 (length out').
Proof.
  assert (∃ u', delete_content_by_url Sample.trending "http://a.example/1"
                  = Some u') as [u' Hu'].
  { eexists. vm_compute. reflexivity. }
  assert (∃ out,
            get_items log_series (clock_at 200) Sample.trending 5 24 100 200
              false = Ok out) as [out Hout].
  { eexists. vm_compute. reflexivity. }
  destruct (get_items_after_delete_content log_series (clock_at 200)
              Sample.trending u' "http://a.example/1" 5 24 100 200 false out
              Hu' Hout) as (out' & Hout' & Hafter).
  exists u', out, out'.
  exact (conj Hu' (conj Hout (conj Hout' Hafter))).
Defined.
